(** * MemorySimulator: a shallow embedding of [memory_simulator.c]

    The program simulates demand paging for one process: a 16-entry
    translation lookaside buffer with FIFO replacement in front of a
    256-entry page table, 256 physical frames of 256 bytes, and a disk
    file that supplies the pages.

    Modelling conventions.
    - C [int] and [long] values are integers of [Z].  Every index the
      program computes is below 2^16, and the three statistics counters
      are bounded by the number of addresses read (lemma
      [counters_bounded]), so no C integer overflows on a stream of fewer
      than 2^31 addresses ([run_in_int_range_bounded]).  On a longer
      stream the [++] of [main] overflow, which C leaves undefined: the
      theorems that give the values of [num_addresses_processed] and
      [num_TLB_hits] over a whole stream assume the stream is no longer
      than [INT_MAX].
    - C arrays are lists of fixed length.  Reading or writing outside an
      array is undefined behaviour in C; here such an access yields
      [None], and the whole computation is in the option monad.
    - The globals [page_table], [local_memory], [TLB] and the function
      static [num_page_faults] form the record [globals], threaded
      through every function that touches them.
    - The disk file is the list of its bytes, each given by the value it
      has as a C [char]; a disk that could not be opened reads like an
      empty one, the page buffer being zero-initialised.  The address
      file is the list of the values [atol] returned for the pieces
      [fgets] delivers, one per line for lines of at most 8 digits.
    - Reading the files and printing are outside the model: a run yields
      the list of the triples passed to [printf] and the final counters,
      from which the two rates are computed. *)

From stdpp Require Import base tactics option numbers list.

Local Open Scope Z_scope.

(** ** Constants ([#define]s) *)

Definition FRAME_SIZE_BYTES : Z := 256.
Definition NUM_FRAMES : Z := 256.
Definition NUM_TLB_ENTRIES : Z := 16.
Definition OFFSET_MASK : Z := 0xFF.
Definition PAGE_NUM_MASK : Z := 0xFF00.
Definition PAGE_NUM_SHIFT : Z := 8.
Definition PAGE_SIZE_BYTES : Z := 256.

(** ** Arrays *)

(** [a[i]] *)
Definition arr_get {A} (a : list A) (i : Z) : option A :=
  if decide (0 <= i) then a !! Z.to_nat i else None.

(** [a[i] = x] *)
Definition arr_set {A} (a : list A) (i : Z) (x : A) : option (list A) :=
  if decide (0 <= i < Z.of_nat (length a))
  then Some (<[Z.to_nat i := x]> a) else None.

(** ** Program state *)

(** [struct memory]; the field [memory] of the C struct is [frames]. *)
Record memory := Memory {
  frames : list (list Z);
  highest_open_frame : Z
}.

(** [struct tlb] *)
Record tlb := Tlb {
  page_numbers : list Z;
  frame_numbers : list Z;
  num_filled : Z;
  head_position : Z
}.

(** The singleton objects, and the static counter of [check_page_table]. *)
Record globals := Globals {
  page_table : list Z;
  local_memory : memory;
  TLB : tlb;
  num_page_faults : Z
}.

(** The statistics variables of [main]. *)
Record locals := Locals {
  num_TLB_hits : Z;
  num_Pg_faults : Z;
  num_addresses_processed : Z
}.

(** One line of output: the three values given to [printf]. *)
Record report := Report {
  virtual_address : Z;
  physical_address : Z;
  value : Z
}.

(** ** Address decomposition *)

Definition get_offset (virtual_address : Z) : Z :=
  Z.land virtual_address OFFSET_MASK.

Definition get_page_number (virtual_address : Z) : Z :=
  Z.shiftr (Z.land virtual_address PAGE_NUM_MASK) PAGE_NUM_SHIFT.

(** ** Initialisation *)

Definition initialize_memory (m : memory) : memory :=
  Memory (frames m) 0.

(** [for(i = 0; i < PAGE_SIZE_BYTES; i++) page_table[i] = -1;] with [n]
    iterations left. *)
Fixpoint initialize_page_table_loop (n : nat) (i : Z) (pt : list Z)
  : option (list Z) :=
  match n with
  | O => Some pt
  | S n' => pt' ← arr_set pt i (-1); initialize_page_table_loop n' (i + 1) pt'
  end.

Definition initialize_page_table (pt : list Z) : option (list Z) :=
  initialize_page_table_loop (Z.to_nat PAGE_SIZE_BYTES) 0 pt.

Definition initialize_TLB (t : tlb) : tlb :=
  Tlb (page_numbers t) (frame_numbers t) 0 0.

(** ** The disk *)

(** [lseek] to [page_number * PAGE_SIZE_BYTES] followed by [read] of one
    page into the zero-initialised buffer [tmp_page]: the bytes the file
    has from that position on, and zeros where it has none. *)
Definition read_page (disk_file : list Z) (page_number : Z) : list Z :=
  let got := take (Z.to_nat PAGE_SIZE_BYTES)
                  (drop (Z.to_nat (page_number * PAGE_SIZE_BYTES)) disk_file) in
  got ++ replicate (Z.to_nat PAGE_SIZE_BYTES - length got)%nat 0.

(** The copy loop of [load_page_disk_to_memory], [n] iterations left. *)
Fixpoint copy_page_loop (tmp_page : list Z) (n : nat) (i : Z) (m : memory)
  : option memory :=
  match n with
  | O => Some m
  | S n' =>
      b ← arr_get tmp_page i;
      row ← arr_get (frames m) (highest_open_frame m);
      row' ← arr_set row i b;
      fr' ← arr_set (frames m) (highest_open_frame m) row';
      copy_page_loop tmp_page n' (i + 1) (Memory fr' (highest_open_frame m))
  end.

Definition load_page_disk_to_memory (page_number offset : Z)
    (disk_file : list Z) (m : memory) : option (Z * memory) :=
  let tmp_page := read_page disk_file page_number in
  m1 ← copy_page_loop tmp_page (Z.to_nat PAGE_SIZE_BYTES) 0 m;
  let frame_number := highest_open_frame m1 in
  Some (frame_number, Memory (frames m1) (highest_open_frame m1 + 1)).

(** ** The translation lookaside buffer *)

(** The scan of [search_TLB], [n] iterations left. *)
Fixpoint search_TLB_loop (t : tlb) (page_number : Z) (n : nat) (index : Z)
  : option Z :=
  match n with
  | O => Some (-1)
  | S n' =>
      let slot := Z.rem (head_position t + index) NUM_TLB_ENTRIES in
      pn ← arr_get (page_numbers t) slot;
      if decide (pn = page_number)
      then arr_get (frame_numbers t) slot
      else search_TLB_loop t page_number n' (index + 1)
  end.

Definition search_TLB (t : tlb) (page_number : Z) : option Z :=
  search_TLB_loop t page_number (Z.to_nat (num_filled t)) 0.

Definition update_page_table (page_number frame_number : Z) (pt : list Z)
  : option (list Z) :=
  arr_set pt page_number frame_number.

Definition update_TLB (page_number frame_number : Z) (t : tlb) : option tlb :=
  if decide (num_filled t = NUM_TLB_ENTRIES) then
    pns ← arr_set (page_numbers t) (head_position t) page_number;
    fns ← arr_set (frame_numbers t) (head_position t) frame_number;
    Some (Tlb pns fns (num_filled t)
              (Z.rem (head_position t + 1) NUM_TLB_ENTRIES))
  else
    pns ← arr_set (page_numbers t) (num_filled t) page_number;
    fns ← arr_set (frame_numbers t) (num_filled t) frame_number;
    Some (Tlb pns fns (num_filled t + 1) (head_position t)).

(** ** The page table *)

(** Returns the value of the static counter and the new globals. *)
Definition check_page_table (page_number offset : Z) (disk_file : list Z)
    (g : globals) : option (Z * globals) :=
  e ← arr_get (page_table g) page_number;
  '(frame_number, g1) ←
    (if decide (e = -1) then
       '(frame_number, m) ←
         load_page_disk_to_memory page_number offset disk_file (local_memory g);
       pt ← update_page_table page_number frame_number (page_table g);
       Some (frame_number, Globals pt m (TLB g) (num_page_faults g + 1))
     else Some (e, g));
  t ← update_TLB page_number frame_number (TLB g1);
  Some (num_page_faults g1,
        Globals (page_table g1) (local_memory g1) t (num_page_faults g1)).

(** ** The main loop *)

(** The body of the [while] loop of [main] for one address.  The two
    [++] are additions in [Z]: they are the additions of C as long as the
    counters stay below [INT_MAX], which [run_in_int_range] states of a
    run. *)
Definition process_address (disk_file : list Z) (virtual_address : Z)
    (s : globals * locals) : option (report * (globals * locals)) :=
  let '(g, l) := s in
  let processed := num_addresses_processed l + 1 in
  let page_number := get_page_number virtual_address in
  let offset := get_offset virtual_address in
  frame_number ← search_TLB (TLB g) page_number;
  '(frame_number, g, l) ←
    (if decide (frame_number = -1) then
       '(faults, g') ← check_page_table page_number offset disk_file g;
       frame_number ← search_TLB (TLB g') page_number;
       Some (frame_number, g', Locals (num_TLB_hits l) faults processed)
     else
       Some (frame_number, g,
             Locals (num_TLB_hits l + 1) (num_Pg_faults l) processed));
  let physical_address := frame_number * FRAME_SIZE_BYTES + offset in
  row ← arr_get (frames (local_memory g)) frame_number;
  value ← arr_get row offset;
  Some (Report virtual_address physical_address value, (g, l)).

(** The [while] loop over the lines of the address file. *)
Fixpoint process_stream (disk_file : list Z) (stream : list Z)
    (s : globals * locals) : option (list report * (globals * locals)) :=
  match stream with
  | [] => Some ([], s)
  | va :: rest =>
      '(r, s1) ← process_address disk_file va s;
      '(rs, s2) ← process_stream disk_file rest s1;
      Some (r :: rs, s2)
  end.

(** The objects as the C runtime provides them: all bytes zero. *)
Definition zeroed_globals : globals :=
  Globals (replicate (Z.to_nat PAGE_SIZE_BYTES) 0)
          (Memory (replicate (Z.to_nat NUM_FRAMES)
                             (replicate (Z.to_nat FRAME_SIZE_BYTES) 0)) 0)
          (Tlb (replicate (Z.to_nat NUM_TLB_ENTRIES) 0)
               (replicate (Z.to_nat NUM_TLB_ENTRIES) 0) 0 0)
          0.

(** The start of [main]: the three initialisers and the zeroed counters. *)
Definition start : option (globals * locals) :=
  let g := zeroed_globals in
  let t := initialize_TLB (TLB g) in
  pt ← initialize_page_table (page_table g);
  let m := initialize_memory (local_memory g) in
  Some (Globals pt m t (num_page_faults g), Locals 0 0 0).

(** [main] up to the final [printf]: the reports in order and the final
    state, whose counters give the two rates. *)
Definition main (disk_file : list Z) (stream : list Z)
  : option (list report * (globals * locals)) :=
  s ← start; process_stream disk_file stream s.

(** ** Which path a resolution takes (specification-level) *)

Inductive resolution := TLB_hit | Table_hit | Page_fault.

#[global] Instance resolution_eq_dec : EqDecision resolution.
Proof. solve_decision. Defined.

(** The path [process_address] takes in state [g] for an address: decided
    by the same two tests the code makes. *)
Definition resolve_path (g : globals) (virtual_address : Z)
  : option resolution :=
  frame_number ← search_TLB (TLB g) (get_page_number virtual_address);
  if decide (frame_number = -1) then
    e ← arr_get (page_table g) (get_page_number virtual_address);
    Some (if decide (e = -1) then Page_fault else Table_hit)
  else Some TLB_hit.

(** The paths taken along a stream, one per address processed. *)
Fixpoint stream_paths (disk_file : list Z) (stream : list Z)
    (s : globals * locals) : list resolution :=
  match stream with
  | [] => []
  | va :: rest =>
      match resolve_path (fst s) va, process_address disk_file va s with
      | Some p, Some (_, s1) => p :: stream_paths disk_file rest s1
      | _, _ => []
      end
  end.

(** The states the loop passes through, the starting one first. *)
Fixpoint stream_states (disk_file : list Z) (stream : list Z)
    (s : globals * locals) : list (globals * locals) :=
  s :: match stream with
       | [] => []
       | va :: rest =>
           match process_address disk_file va s with
           | Some (_, s1) => stream_states disk_file rest s1
           | None => []
           end
       end.

(** * Specification-level definitions *)

(** ** The translation lookaside buffer as a ring *)

(** The shape of the buffer: the bounds of the two indices. *)
Definition tlb_inv (t : tlb) : Prop :=
  0 <= num_filled t <= NUM_TLB_ENTRIES ∧
  0 <= head_position t < NUM_TLB_ENTRIES ∧
  (num_filled t < NUM_TLB_ENTRIES → head_position t = 0).

(** [tlb_inv] together with the sizes of the two arrays. *)
Definition tlb_wf (t : tlb) : Prop :=
  length (page_numbers t) = Z.to_nat NUM_TLB_ENTRIES ∧
  length (frame_numbers t) = Z.to_nat NUM_TLB_ENTRIES ∧
  tlb_inv t.

(** The slot the scan of [search_TLB] visits at step [index]. *)
Definition tlb_slot (t : tlb) (index : Z) : Z :=
  Z.rem (head_position t + index) NUM_TLB_ENTRIES.

(** The entries held, in the order [search_TLB] visits them. *)
Definition tlb_view (t : tlb) : list (Z * Z) :=
  (λ index, (page_numbers t !!! Z.to_nat (tlb_slot t index),
             frame_numbers t !!! Z.to_nat (tlb_slot t index)))
    <$> seqZ 0 (num_filled t).

(** The first frame number paired with [page_number] in a queue of
    entries, or [-1]: what [search_TLB] computes, read off the view. *)
Fixpoint queue_lookup (q : list (Z * Z)) (page_number : Z) : Z :=
  match q with
  | [] => -1
  | (pn, fn) :: q' =>
      if decide (pn = page_number) then fn else queue_lookup q' page_number
  end.

(** FIFO insertion into a queue of capacity [NUM_TLB_ENTRIES]: the new
    entry goes to the back, and the front one leaves when the queue is
    full. *)
Definition queue_push {A} (q : list A) (e : A) : list A :=
  (if decide (Z.of_nat (length q) = NUM_TLB_ENTRIES) then drop 1 q else q)
    ++ [e].

(** ** The invariant of the globals *)

(** The pages loaded so far, in the order of their faults: [touch] adds a
    page at its first reference. *)
Definition touch (loaded : list Z) (page_number : Z) : list Z :=
  if decide (page_number ∈ loaded) then loaded else loaded ++ [page_number].

(** The pages of a stream in the order of their first references. *)
Definition loaded_pages (stream : list Z) : list Z :=
  foldl touch [] (get_page_number <$> stream).

(** The path the code is to take for a page, given the pages loaded and
    the entries held by the buffer. *)
Definition expected_path (loaded : list Z) (q : list (Z * Z)) (p : Z)
  : resolution :=
  if decide (p ∈ q.*1) then TLB_hit
  else if decide (p ∈ loaded) then Table_hit else Page_fault.

(** [Inv loaded g]: the globals [g] are those of a run in which exactly
    the pages [loaded] have faulted, in that order. *)
Record Inv (disk_file : list Z) (loaded : list Z) (g : globals) : Prop := {
  inv_pt_len : length (page_table g) = 256%nat;
  inv_frames_len : length (frames (local_memory g)) = 256%nat;
  inv_rows_len : ∀ i row,
    frames (local_memory g) !! i = Some row → length row = 256%nat;
  inv_tlb : tlb_wf (TLB g);
  inv_hof : highest_open_frame (local_memory g) = Z.of_nat (length loaded);
  inv_faults : num_page_faults g = Z.of_nat (length loaded);
  inv_nodup : NoDup loaded;
  inv_range : ∀ p, p ∈ loaded → 0 <= p < 256;
  inv_mapped : ∀ i p,
    loaded !! i = Some p → page_table g !! Z.to_nat p = Some (Z.of_nat i);
  inv_unmapped : ∀ p,
    0 <= p < 256 → p ∉ loaded → page_table g !! Z.to_nat p = Some (-1);
  inv_mem : ∀ i p,
    loaded !! i = Some p →
    frames (local_memory g) !! i = Some (read_page disk_file p);
  inv_tlb_nodup : NoDup (tlb_view (TLB g)).*1;
  inv_tlb_sound : ∀ p f,
    (p, f) ∈ tlb_view (TLB g) →
    ∃ i, loaded !! i = Some p ∧ f = Z.of_nat i
}.

Arguments inv_pt_len {disk_file loaded g} _.
Arguments inv_frames_len {disk_file loaded g} _.
Arguments inv_rows_len {disk_file loaded g} _.
Arguments inv_tlb {disk_file loaded g} _.
Arguments inv_hof {disk_file loaded g} _.
Arguments inv_faults {disk_file loaded g} _.
Arguments inv_nodup {disk_file loaded g} _.
Arguments inv_range {disk_file loaded g} _.
Arguments inv_mapped {disk_file loaded g} _.
Arguments inv_unmapped {disk_file loaded g} _.
Arguments inv_mem {disk_file loaded g} _.
Arguments inv_tlb_nodup {disk_file loaded g} _.
Arguments inv_tlb_sound {disk_file loaded g} _.

(** The statistics as [process_address] leaves them after an address
    that took [path]: past a miss of the buffer, [num_Pg_faults] is the
    value [check_page_table] returned, the number of pages [loaded']. *)
Definition step_locals (path : resolution) (loaded' : list Z) (l : locals)
  : locals :=
  match path with
  | TLB_hit =>
      Locals (num_TLB_hits l + 1) (num_Pg_faults l)
             (num_addresses_processed l + 1)
  | _ =>
      Locals (num_TLB_hits l) (Z.of_nat (length loaded'))
             (num_addresses_processed l + 1)
  end.

(** The globals once the three initialisers have run. *)
Definition initial_globals : globals :=
  Globals (replicate 256 (-1))
          (Memory (replicate 256 (replicate 256 0)) 0)
          (Tlb (replicate 16 0) (replicate 16 0) 0 0)
          0.

(** The invariant together with the agreement of the fault count of
    [main] with the static counter. *)
Definition state_inv (disk_file : list Z) (loaded : list Z)
    (s : globals * locals) : Prop :=
  Inv disk_file loaded s.1 ∧ num_Pg_faults s.2 = Z.of_nat (length loaded).

(** What one report says, given the pages loaded by the end. *)
Definition report_ok (disk_file : list Z) (loaded : list Z) (va : Z)
    (r : report) : Prop :=
  virtual_address r = va ∧
  ∃ f : nat,
    loaded !! f = Some (get_page_number va) ∧
    physical_address r = Z.of_nat f * FRAME_SIZE_BYTES + get_offset va ∧
    read_page disk_file (get_page_number va) !! Z.to_nat (get_offset va)
      = Some (value r).

(** ** Observations along a run *)

(** The state in which the loop of [main] is entered. *)
Definition initial_state : globals * locals :=
  (initial_globals, Locals 0 0 0).

(** The frame numbers returned by [load_page_disk_to_memory] along a
    stream, in order: one for each page fault. *)
Fixpoint stream_allocations (disk_file : list Z) (stream : list Z)
    (s : globals * locals) : list Z :=
  match stream with
  | [] => []
  | va :: rest =>
      match resolve_path (fst s) va, process_address disk_file va s with
      | Some path, Some (_, s1) =>
          match path,
                load_page_disk_to_memory (get_page_number va) (get_offset va)
                  disk_file (local_memory (fst s)) with
          | Page_fault, Some (frame_number, _) =>
              frame_number :: stream_allocations disk_file rest s1
          | _, _ => stream_allocations disk_file rest s1
          end
      | _, _ => []
      end
  end.

(** How often a path occurs among the paths of a run. *)
Definition occurrences (path : resolution) (paths : list resolution) : Z :=
  Z.of_nat (length (filter (λ q, q = path) paths)).

(** The statistics after one more address that took [path]. *)
Definition count_path (path : resolution) (l : locals) : locals :=
  Locals (num_TLB_hits l + (if decide (path = TLB_hit) then 1 else 0))
         (num_Pg_faults l + (if decide (path = Page_fault) then 1 else 0))
         (num_addresses_processed l + 1).

(** The statistics after each address of a run that took [paths], the
    starting ones first. *)
Fixpoint locals_along (paths : list resolution) (l : locals) : list locals :=
  l :: match paths with
       | [] => []
       | path :: paths' => locals_along paths' (count_path path l)
       end.

(** No counter of [l2] is below the one of [l1]. *)
Definition locals_le (l1 l2 : locals) : Prop :=
  num_TLB_hits l1 <= num_TLB_hits l2 ∧
  num_Pg_faults l1 <= num_Pg_faults l2 ∧
  num_addresses_processed l1 <= num_addresses_processed l2.

(** A sequence of insertions into the buffer, the first entry first. *)
Definition insert_all (es : list (Z * Z)) (t : tlb) : option tlb :=
  foldl (λ ot e, t ← ot; update_TLB e.1 e.2 t) (Some t) es.

(** ** The range of the counters *)

(** The largest value of an [int], taken to be 32 bits wide as the source
    does for its addresses. *)
Definition INT_MAX : Z := 2147483647.

Definition int_range (x : Z) : Prop := - INT_MAX - 1 <= x <= INT_MAX.

(** The three counters of [main] are values an [int] can hold. *)
Definition locals_in_int (l : locals) : Prop :=
  int_range (num_TLB_hits l) ∧
  int_range (num_Pg_faults l) ∧
  int_range (num_addresses_processed l).

(** No [++] of the run over [stream] overflows: in every state the loop
    passes through, the counters are within the range of [int], so that
    the integers of the model are the values the program holds. *)
Definition run_in_int_range (disk_file stream : list Z) : Prop :=
  Forall locals_in_int (stream_states disk_file stream initial_state).*2.


(** The disk of the scenario of section 8 of the description: page 0 all
    zero, page 1 all 5. *)
Definition disk_0_5 : list Z := replicate 256 0 ++ replicate 256 5.

(** Seventeen addresses on seventeen different pages: 0, 256, ..., 4096. *)
Definition stream_17 : list Z := (λ i, i * 256) <$> seqZ 0 17.

(** * Properties *)

(** Reduce the binds of the option monad once their argument is known. *)
Tactic Notation "run_bind" := cbn [mbind option_bind].
Tactic Notation "run_bind" "in" hyp(H) := cbn [mbind option_bind] in H.

(** ** Concrete inputs *)

Example get_page_number_example : get_page_number 0x12AB = 0x12.
Proof. reflexivity. Qed.

Example get_offset_example : get_offset 0x12AB = 0xAB.
Proof. reflexivity. Qed.

Example get_page_number_negative : get_page_number (-1) = 255.
Proof. reflexivity. Qed.

Example scenario_values :
  (fst <$> main disk_0_5 [0; 256; 1; 0]) =
  Some [Report 0 0 0; Report 256 256 5; Report 1 1 0; Report 0 0 0].
Proof. vm_compute. reflexivity. Qed.

Example scenario_counters :
  (snd ∘ snd <$> main disk_0_5 [0; 256; 1]) = Some (Locals 1 2 3).
Proof. vm_compute. reflexivity. Qed.

Example scenario_paths :
  stream_paths disk_0_5 [0; 256; 1; 0] initial_state =
  [Page_fault; Page_fault; TLB_hit; TLB_hit].
Proof. vm_compute. reflexivity. Qed.

Example scenario_eviction :
  stream_paths disk_0_5 (stream_17 ++ [0; 4096; 0]) initial_state =
  replicate 17 Page_fault ++ [Table_hit; TLB_hit; TLB_hit].
Proof. vm_compute. reflexivity. Qed.

(** ** Arrays *)

Lemma arr_get_Some {A} (a : list A) i x :
  arr_get a i = Some x ↔ 0 <= i ∧ a !! Z.to_nat i = Some x.
Proof.
  unfold arr_get. case_decide; split.
  - done.
  - by intros [_ ?].
  - done.
  - intros [Hi _]. lia.
Qed.

Lemma arr_get_in_range {A} (a : list A) i :
  0 <= i < Z.of_nat (length a) → ∃ x, arr_get a i = Some x.
Proof.
  intros Hi. destruct (lookup_lt_is_Some_2 a (Z.to_nat i)) as [x Hx]; [lia|].
  exists x. apply arr_get_Some. split; [lia|done].
Qed.

Lemma arr_set_Some {A} (a : list A) i x a' :
  arr_set a i x = Some a' ↔
  0 <= i < Z.of_nat (length a) ∧ a' = <[Z.to_nat i := x]> a.
Proof.
  unfold arr_set. case_decide; split.
  - intros [= <-]. done.
  - intros [_ ->]. done.
  - done.
  - intros [Hi _]. lia.
Qed.

Lemma arr_set_in_range {A} (a : list A) i x :
  0 <= i < Z.of_nat (length a) →
  arr_set a i x = Some (<[Z.to_nat i := x]> a).
Proof. intros Hi. by apply arr_set_Some. Qed.

(** ** Address decomposition *)

Lemma get_offset_range a : 0 <= get_offset a < 256.
Proof.
  unfold get_offset, OFFSET_MASK.
  change 255 with (Z.ones 8). rewrite Z.land_ones by lia.
  apply Z.mod_pos_bound. lia.
Qed.

Lemma get_page_number_shift_mask a :
  get_page_number a = Z.land (Z.shiftr a 8) 255.
Proof.
  unfold get_page_number, PAGE_NUM_MASK, PAGE_NUM_SHIFT.
  rewrite Z.shiftr_land. reflexivity.
Qed.

Lemma get_page_number_range a : 0 <= get_page_number a < 256.
Proof.
  rewrite get_page_number_shift_mask.
  change 255 with (Z.ones 8). rewrite Z.land_ones by lia.
  apply Z.mod_pos_bound. lia.
Qed.

(** ** The translation lookaside buffer as a ring *)

Lemma tlb_slot_range t index :
  0 <= head_position t → 0 <= index → 0 <= tlb_slot t index < 16.
Proof.
  intros Hh Hi. unfold tlb_slot, NUM_TLB_ENTRIES.
  rewrite Z.rem_mod_nonneg by lia. apply Z.mod_pos_bound. lia.
Qed.

Lemma tlb_slot_held t index :
  tlb_inv t → 0 <= index < num_filled t →
  0 <= tlb_slot t index < num_filled t.
Proof.
  unfold tlb_inv, NUM_TLB_ENTRIES. intros (Hn & Hh & H0) Hi.
  pose proof (tlb_slot_range t index) as Hr.
  destruct (decide (num_filled t < 16)) as [Hlt|Hge].
  - unfold tlb_slot, NUM_TLB_ENTRIES in *. rewrite (H0 Hlt).
    rewrite Z.rem_mod_nonneg, Z.mod_small by lia. lia.
  - lia.
Qed.

(** Every held slot is visited by the scan. *)
Lemma tlb_slot_surj t slot :
  tlb_inv t → 0 <= slot < num_filled t →
  ∃ index, 0 <= index < num_filled t ∧ tlb_slot t index = slot.
Proof.
  unfold tlb_inv, NUM_TLB_ENTRIES. intros (Hn & Hh & H0) Hs.
  destruct (decide (num_filled t < 16)) as [Hlt|Hge].
  - exists slot. split; [done|]. unfold tlb_slot, NUM_TLB_ENTRIES.
    rewrite (H0 Hlt). rewrite Z.rem_mod_nonneg, Z.mod_small by lia. lia.
  - exists ((slot - head_position t) mod 16).
    pose proof (Z.mod_pos_bound (slot - head_position t) 16 ltac:(lia)).
    split; [lia|]. unfold tlb_slot, NUM_TLB_ENTRIES.
    rewrite Z.rem_mod_nonneg by lia.
    rewrite Zplus_mod_idemp_r.
    replace (head_position t + (slot - head_position t)) with slot by lia.
    apply Z.mod_small. lia.
Qed.

Lemma tlb_slot_inj t i j :
  tlb_inv t → 0 <= i < num_filled t → 0 <= j < num_filled t →
  tlb_slot t i = tlb_slot t j → i = j.
Proof.
  unfold tlb_inv, tlb_slot, NUM_TLB_ENTRIES. intros (Hn & Hh & H0) Hi Hj.
  rewrite !Z.rem_mod_nonneg by lia. intros Heq.
  Z.div_mod_to_equations. lia.
Qed.

Lemma tlb_view_length t : length (tlb_view t) = Z.to_nat (num_filled t).
Proof. unfold tlb_view. by rewrite length_fmap, length_seqZ. Qed.

Lemma tlb_view_lookup t (k : nat) :
  Z.of_nat k < num_filled t →
  tlb_view t !! k =
  Some (page_numbers t !!! Z.to_nat (tlb_slot t (Z.of_nat k)),
        frame_numbers t !!! Z.to_nat (tlb_slot t (Z.of_nat k))).
Proof.
  intros Hk. unfold tlb_view.
  rewrite list_lookup_fmap, lookup_seqZ_lt by done. done.
Qed.

Lemma search_TLB_loop_view t p n i :
  tlb_wf t → 0 <= i →
  search_TLB_loop t p n i =
  Some (queue_lookup
          ((λ index, (page_numbers t !!! Z.to_nat (tlb_slot t index),
                      frame_numbers t !!! Z.to_nat (tlb_slot t index)))
             <$> seqZ i (Z.of_nat n)) p).
Proof.
  intros (Hlp & Hlf & Hn & Hh & H0). revert i.
  induction n as [|n IH]; intros i Hi.
  - done.
  - rewrite seqZ_cons by lia. cbn [search_TLB_loop fmap list_fmap queue_lookup].
    fold (tlb_slot t i).
    pose proof (tlb_slot_range t i ltac:(lia) Hi) as Hs.
    unfold NUM_TLB_ENTRIES in *.
    destruct (arr_get_in_range (page_numbers t) (tlb_slot t i)) as [pn Hpn];
      [lia|].
    destruct (arr_get_in_range (frame_numbers t) (tlb_slot t i)) as [fn Hfn];
      [lia|].
    rewrite Hpn. run_bind.
    apply arr_get_Some in Hpn as [_ Hpn]. 
    rewrite (list_lookup_total_correct _ _ _ Hpn).
    case_decide.
    + rewrite Hfn. apply arr_get_Some in Hfn as [_ Hfn].
      by rewrite (list_lookup_total_correct _ _ _ Hfn).
    + rewrite IH by lia.
      replace (Z.pred (Z.of_nat (S n))) with (Z.of_nat n) by lia.
      replace (Z.succ i) with (i + 1) by lia. done.
Qed.

(** [search_TLB] returns the first match in scan order, or [-1]. *)
Lemma search_TLB_view t p :
  tlb_wf t → search_TLB t p = Some (queue_lookup (tlb_view t) p).
Proof.
  intros Hwf. unfold search_TLB, tlb_view.
  rewrite search_TLB_loop_view by done.
  destruct Hwf as (_ & _ & Hn & _). rewrite Z2Nat.id by lia. done.
Qed.

Lemma queue_lookup_miss q p :
  p ∉ q.*1 → queue_lookup q p = -1.
Proof.
  induction q as [|[pn fn] q IH]; [done|]. cbn. intros Hp.
  apply not_elem_of_cons in Hp as [Hne Hp]. case_decide; [congruence|auto].
Qed.

Lemma queue_lookup_hit q p f :
  queue_lookup q p = f → f ≠ -1 → (p, f) ∈ q.
Proof.
  induction q as [|[pn fn] q IH]; cbn; [congruence|].
  intros Hq Hf. case_decide; subst.
  - left.
  - right. auto.
Qed.

Lemma queue_lookup_elem q p :
  p ∈ q.*1 → (p, queue_lookup q p) ∈ q.
Proof.
  induction q as [|[pn fn] q IH]; cbn; [by intros ?%elem_of_nil|].
  intros Hp. case_decide; subst.
  - left.
  - right. apply IH. apply elem_of_cons in Hp as [?|?]; [congruence|done].
Qed.

Lemma queue_lookup_snoc q p f :
  p ∉ q.*1 → queue_lookup (q ++ [(p, f)]) p = f.
Proof.
  induction q as [|[pn fn] q IH]; cbn.
  - intros _. by rewrite decide_True.
  - intros Hp. apply not_elem_of_cons in Hp as [Hne Hp].
    rewrite decide_False by congruence. auto.
Qed.

(** ** [update_TLB] *)

Lemma update_TLB_wf p f t :
  tlb_wf t → ∃ t', update_TLB p f t = Some t' ∧ tlb_wf t'.
Proof.
  unfold tlb_wf, tlb_inv, update_TLB, NUM_TLB_ENTRIES.
  intros (Hlp & Hlf & Hn & Hh & H0).
  case_decide as Hfull.
  - rewrite !arr_set_in_range by lia. cbn. eexists; split; [done|]. cbn.
    rewrite !length_insert, Z.rem_mod_nonneg by lia.
    pose proof (Z.mod_pos_bound (head_position t + 1) 16 ltac:(lia)).
    repeat split; lia.
  - rewrite !arr_set_in_range by lia. cbn. eexists; split; [done|]. cbn.
    rewrite !length_insert. repeat split; lia.
Qed.

(** On the view, [update_TLB] is a FIFO push. *)
Lemma update_TLB_view p f t t' :
  tlb_wf t → update_TLB p f t = Some t' →
  tlb_view t' = queue_push (tlb_view t) (p, f).
Proof.
  intros Hwf Hup.
  destruct (update_TLB_wf p f t Hwf) as (t'' & Hup' & Hwf').
  rewrite Hup in Hup'. injection Hup' as <-.
  destruct Hwf as (Hlp & Hlf & Hn & Hh & H0).
  unfold queue_push. rewrite tlb_view_length, Z2Nat.id by lia.
  revert Hup. unfold update_TLB, NUM_TLB_ENTRIES in *.
  case_decide as Hfull.
  - rewrite !arr_set_in_range by lia. cbn. intros [= <-].
    apply list_eq. intros k.
    destruct (decide (k < 15)%nat) as [Hk|Hk].
    + rewrite tlb_view_lookup by (cbn; lia).
      rewrite lookup_app_l
        by (rewrite length_drop, tlb_view_length; lia).
      rewrite lookup_drop, tlb_view_lookup by lia.
      unfold tlb_slot, NUM_TLB_ENTRIES.
      cbn [head_position page_numbers frame_numbers].
      rewrite (Z.rem_mod_nonneg (head_position t + 1) 16) by lia.
      pose proof (Z.mod_pos_bound (head_position t + 1) 16 ltac:(lia)).
      rewrite !Z.rem_mod_nonneg by lia.
      rewrite Zplus_mod_idemp_l.
      replace (head_position t + 1 + Z.of_nat k)
        with (head_position t + Z.of_nat (1 + k)) by lia.
      assert ((head_position t + Z.of_nat (1 + k)) mod 16 ≠ head_position t)
        as Hne by (Z.div_mod_to_equations; lia).
      pose proof (Z.mod_pos_bound (head_position t + Z.of_nat (1 + k)) 16
                    ltac:(lia)).
      rewrite !list_lookup_total_insert_ne by lia. done.
    + destruct (decide (k = 15)%nat) as [->|Hk'].
      * rewrite tlb_view_lookup by (cbn; lia).
        rewrite lookup_app_r
          by (rewrite length_drop, tlb_view_length; lia).
        rewrite length_drop, tlb_view_length.
        replace (15 - (Z.to_nat (num_filled t) - 1))%nat with 0%nat by lia.
        unfold tlb_slot, NUM_TLB_ENTRIES. cbn [head_position lookup list_lookup
          page_numbers frame_numbers].
        rewrite (Z.rem_mod_nonneg (head_position t + 1) 16) by lia.
        pose proof (Z.mod_pos_bound (head_position t + 1) 16 ltac:(lia)).
        rewrite !Z.rem_mod_nonneg by lia.
        rewrite Zplus_mod_idemp_l.
        replace ((head_position t + 1 + Z.of_nat 15) mod 16)
          with (head_position t) by (Z.div_mod_to_equations; lia).
        rewrite !list_lookup_total_insert_eq by lia. done.
      * rewrite !lookup_ge_None_2; [done| |].
        -- rewrite length_app, length_drop, tlb_view_length. cbn. lia.
        -- rewrite tlb_view_length. cbn. lia.
  - rewrite !arr_set_in_range by lia. cbn. intros [= <-].
    assert (head_position t = 0) as Hh0 by lia.
    apply list_eq. intros k.
    destruct (decide (Z.of_nat k < num_filled t)) as [Hk|Hk].
    + rewrite tlb_view_lookup by (cbn; lia).
      rewrite lookup_app_l by (rewrite tlb_view_length; lia).
      rewrite tlb_view_lookup by lia.
      unfold tlb_slot, NUM_TLB_ENTRIES.
      cbn [head_position page_numbers frame_numbers]. rewrite Hh0.
      rewrite !Z.rem_mod_nonneg, !Z.mod_small by lia.
      rewrite !list_lookup_total_insert_ne by lia. done.
    + destruct (decide (Z.of_nat k = num_filled t)) as [Hk'|Hk'].
      * rewrite tlb_view_lookup by (cbn; lia).
        rewrite lookup_app_r by (rewrite tlb_view_length; lia).
        rewrite tlb_view_length.
        replace (k - Z.to_nat (num_filled t))%nat with 0%nat by lia.
        unfold tlb_slot, NUM_TLB_ENTRIES. cbn [head_position lookup list_lookup
          page_numbers frame_numbers].
        rewrite !Z.rem_mod_nonneg, !Z.mod_small by lia.
        replace (Z.to_nat (head_position t + Z.of_nat k))
          with (Z.to_nat (num_filled t)) by lia.
        rewrite !list_lookup_total_insert_eq by lia. done.
      * rewrite !lookup_ge_None_2; [done| |].
        -- rewrite length_app, tlb_view_length. cbn. lia.
        -- rewrite tlb_view_length. cbn. lia.
Qed.

Lemma queue_push_elem {A} (q : list A) e x :
  x ∈ queue_push q e → x ∈ q ∨ x = e.
Proof.
  unfold queue_push. rewrite elem_of_app, list_elem_of_singleton.
  intros [Hx|Hx]; [left|by right].
  case_decide; [|done]. by apply (subseteq_drop 1 q).
Qed.

Lemma queue_push_fmap {A B} (f : A → B) (q : list A) e :
  f <$> queue_push q e = queue_push (f <$> q) (f e).
Proof.
  unfold queue_push. rewrite fmap_app, length_fmap.
  case_decide; by rewrite ?fmap_drop.
Qed.

Lemma queue_push_last {A} (q : list A) e : e ∈ queue_push q e.
Proof.
  unfold queue_push. rewrite elem_of_app, list_elem_of_singleton. by right.
Qed.

Lemma queue_push_NoDup (q : list (Z * Z)) p f :
  NoDup q.*1 → p ∉ q.*1 → NoDup (queue_push q (p, f)).*1.
Proof.
  intros Hnd Hp. unfold queue_push. rewrite fmap_app. cbn.
  apply NoDup_app. split; [|split].
  - case_decide; [|done]. rewrite fmap_drop.
    exact (sublist_NoDup _ _ Hnd (sublist_drop _ 1)).
  - intros x Hx ->%list_elem_of_singleton. apply Hp.
    case_decide; [|done]. rewrite fmap_drop in Hx.
    by apply (subseteq_drop 1 q.*1).
  - apply NoDup_singleton.
Qed.

Lemma queue_push_lookup (q : list (Z * Z)) p f :
  p ∉ q.*1 → queue_lookup (queue_push q (p, f)) p = f.
Proof.
  intros Hp. unfold queue_push. apply queue_lookup_snoc.
  case_decide; [|done]. rewrite fmap_drop.
  intros Hx. apply Hp. by apply (subseteq_drop 1 q.*1).
Qed.

Lemma queue_push_length {A} (q : list A) e :
  (length q <= 16)%nat → (length (queue_push q e) <= 16)%nat.
Proof.
  unfold queue_push, NUM_TLB_ENTRIES. intros Hq.
  rewrite length_app. case_decide; rewrite ?length_drop; cbn; lia.
Qed.

(** ** The initialisation and copy loops *)

Lemma initialize_page_table_loop_spec n i pt :
  0 <= i → (Z.to_nat i + n <= length pt)%nat →
  initialize_page_table_loop n i pt =
  Some (take (Z.to_nat i) pt ++ replicate n (-1)
          ++ drop (Z.to_nat i + n) pt).
Proof.
  revert i pt. induction n as [|n IH]; intros i pt Hi Hlen.
  - cbn. rewrite Nat.add_0_r, take_drop. done.
  - cbn [initialize_page_table_loop].
    rewrite arr_set_in_range by lia. run_bind.
    rewrite IH by (rewrite ?length_insert; lia). f_equal.
    replace (Z.to_nat (i + 1)) with (S (Z.to_nat i)) by lia.
    destruct (lookup_lt_is_Some_2 pt (Z.to_nat i)) as [x Hx]; [lia|].
    rewrite (take_S_r _ _ (-1))
      by (apply list_lookup_insert_eq; lia).
    rewrite take_insert_ge by lia.
    rewrite drop_insert_lt by lia.
    rewrite <- app_assoc. cbn.
    by replace (S (Z.to_nat i + n)) with (Z.to_nat i + S n)%nat by lia.
Qed.

Lemma copy_page_loop_spec tmp_page n i m row :
  0 <= i → 0 <= highest_open_frame m →
  frames m !! Z.to_nat (highest_open_frame m) = Some row →
  (Z.to_nat i + n <= length row)%nat →
  (Z.to_nat i + n <= length tmp_page)%nat →
  ∃ row',
    copy_page_loop tmp_page n i m =
    Some (Memory (<[Z.to_nat (highest_open_frame m) := row']> (frames m))
                 (highest_open_frame m)) ∧
    length row' = length row ∧
    ∀ k, row' !! k =
         if decide (Z.to_nat i <= k < Z.to_nat i + n)%nat
         then tmp_page !! k else row !! k.
Proof.
  revert i m row. induction n as [|n IH]; intros i m row Hi Hh Hrow Hl1 Hl2.
  - exists row. cbn. rewrite list_insert_id by done.
    destruct m; cbn. split; [done|]. split; [done|].
    intros k. rewrite decide_False by lia. done.
  - cbn [copy_page_loop].
    destruct (arr_get_in_range tmp_page i) as [b Hb]; [lia|].
    rewrite Hb. run_bind.
    apply arr_get_Some in Hb as [_ Hb].
    assert (arr_get (frames m) (highest_open_frame m) = Some row) as ->
      by (by apply arr_get_Some).
    run_bind.
    rewrite arr_set_in_range by lia. run_bind.
    pose proof (lookup_lt_Some _ _ _ Hrow) as Hlt.
    rewrite arr_set_in_range by lia. run_bind.
    edestruct (IH (i + 1)
                 (Memory (<[Z.to_nat (highest_open_frame m) :=
                              <[Z.to_nat i := b]> row]> (frames m))
                         (highest_open_frame m))
                 (<[Z.to_nat i := b]> row))
      as (row' & Heq & Hlen & Hlk); cbn [frames highest_open_frame].
    + lia.
    + done.
    + by apply list_lookup_insert_eq.
    + rewrite length_insert. lia.
    + lia.
    + exists row'. rewrite Heq. cbn [frames highest_open_frame].
      rewrite list_insert_insert_eq. split; [done|].
      rewrite Hlen, length_insert. split; [done|].
      intros k. rewrite Hlk.
      replace (Z.to_nat (i + 1)) with (S (Z.to_nat i)) by lia.
      destruct (decide (k = Z.to_nat i)) as [->|Hne].
      * rewrite decide_False by lia. rewrite decide_True by lia.
        rewrite list_lookup_insert_eq by lia. done.
      * rewrite list_lookup_insert_ne by done.
        repeat case_decide; try done; lia.
Qed.

Lemma read_page_length disk_file p :
  length (read_page disk_file p) = 256%nat.
Proof.
  unfold read_page, PAGE_SIZE_BYTES.
  rewrite length_app, length_replicate, length_take. lia.
Qed.

(** A fault copies the page read from the disk into the next open frame. *)
Lemma load_page_disk_to_memory_spec p o disk_file m :
  0 <= highest_open_frame m < 256 →
  length (frames m) = 256%nat →
  (∀ i row, frames m !! i = Some row → length row = 256%nat) →
  load_page_disk_to_memory p o disk_file m =
  Some (highest_open_frame m,
        Memory (<[Z.to_nat (highest_open_frame m) := read_page disk_file p]>
                  (frames m))
               (highest_open_frame m + 1)).
Proof.
  intros Hh Hlen Hrows. unfold load_page_disk_to_memory, PAGE_SIZE_BYTES.
  destruct (lookup_lt_is_Some_2 (frames m) (Z.to_nat (highest_open_frame m)))
    as [row Hrow]; [lia|].
  pose proof (Hrows _ _ Hrow) as Hrl.
  destruct (copy_page_loop_spec (read_page disk_file p) (Z.to_nat 256) 0 m row)
    as (row' & -> & Hlen' & Hlk);
    rewrite ?read_page_length; try done; try lia.
  cbn [mbind option_bind frames highest_open_frame].
  assert (row' = read_page disk_file p) as ->; [|done].
  apply list_eq. intros k. rewrite Hlk.
  case_decide as Hk; [done|].
  rewrite !lookup_ge_None_2; [done| |]; rewrite ?read_page_length; lia.
Qed.

(** ** The invariant of the globals *)

Lemma bounded_NoDup_length (l : list Z) :
  NoDup l → (∀ x, x ∈ l → 0 <= x < 256) → (length l <= 256)%nat.
Proof.
  intros Hnd Hr.
  assert (l ⊆+ seqZ 0 256) as Hsub.
  { apply NoDup_submseteq; [done|]. intros x Hx. apply elem_of_seqZ.
    specialize (Hr x Hx). lia. }
  apply submseteq_length in Hsub. by rewrite length_seqZ in Hsub.
Qed.

Section invariant.
Variable disk_file : list Z.

Lemma Inv_loaded_length loaded g :
  Inv disk_file loaded g → (length loaded <= 256)%nat.
Proof.
  intros HI. apply bounded_NoDup_length; [apply HI|]. apply (inv_range HI).
Qed.

Lemma Inv_room loaded g p :
  Inv disk_file loaded g → 0 <= p < 256 → p ∉ loaded →
  (length loaded < 256)%nat.
Proof.
  intros HI Hp Hnl.
  assert (length (p :: loaded) <= 256)%nat as Hlen; [|cbn in Hlen; lia].
  apply bounded_NoDup_length.
  - apply NoDup_cons. split; [done|apply HI].
  - intros x [->|Hx]%elem_of_cons; [done|]. by apply (inv_range HI).
Qed.

Lemma Inv_tlb_in_loaded loaded g p :
  Inv disk_file loaded g → p ∈ (tlb_view (TLB g)).*1 → p ∈ loaded.
Proof.
  intros HI ([q f] & -> & Hq)%list_elem_of_fmap.
  destruct (inv_tlb_sound HI _ _ Hq) as (i & Hi & _).
  by eapply list_elem_of_lookup_2.
Qed.

(** [check_page_table], run after a miss of the buffer. *)
Lemma check_page_table_spec loaded g p o :
  Inv disk_file loaded g → 0 <= p < 256 → p ∉ (tlb_view (TLB g)).*1 →
  ∃ f g',
    check_page_table p o disk_file g =
      Some (Z.of_nat (length (touch loaded p)), g') ∧
    Inv disk_file (touch loaded p) g' ∧
    touch loaded p !! Z.to_nat f = Some p ∧ 0 <= f ∧
    tlb_view (TLB g') = queue_push (tlb_view (TLB g)) (p, f) ∧
    arr_get (page_table g) p =
      Some (if decide (p ∈ loaded) then f else -1).
Proof.
  intros HI Hp Hmiss. unfold check_page_table, touch.
  destruct (decide (p ∈ loaded)) as [Hin|Hnin].
  - (* the page has a frame *)
    apply list_elem_of_lookup_1 in Hin as [i Hi].
    pose proof (inv_mapped HI _ _ Hi) as Hpt.
    assert (arr_get (page_table g) p = Some (Z.of_nat i)) as Hget
      by (apply arr_get_Some; split; [lia|done]).
    rewrite Hget. run_bind.
    rewrite decide_False by lia. run_bind.
    destruct (update_TLB_wf p (Z.of_nat i) (TLB g) (inv_tlb HI))
      as (t' & Hup & Hwf').
    rewrite Hup. run_bind.
    exists (Z.of_nat i). eexists. split.
    { rewrite (inv_faults HI). done. }
    pose proof (update_TLB_view _ _ _ _ (inv_tlb HI) Hup) as Hview.
    rewrite Nat2Z.id. split_and!; [|done|lia|done|done].
    destruct HI. constructor; cbn [page_table local_memory TLB
      num_page_faults]; try done.
    + rewrite Hview. by apply queue_push_NoDup.
    + intros q f. rewrite Hview. intros [Hq|[= -> ->]]%queue_push_elem.
      * by apply inv_tlb_sound0.
      * eauto.
  - (* page fault *)
    pose proof (inv_unmapped HI _ Hp Hnin) as Hpt.
    assert (arr_get (page_table g) p = Some (-1)) as Hget
      by (apply arr_get_Some; split; [lia|done]).
    rewrite Hget. run_bind.
    rewrite decide_True by done.
    pose proof (Inv_room _ _ _ HI Hp Hnin) as Hroom.
    rewrite load_page_disk_to_memory_spec;
      [|rewrite (inv_hof HI); lia|apply HI|apply HI].
    run_bind. unfold update_page_table.
    rewrite arr_set_in_range by (rewrite (inv_pt_len HI); lia).
    cbn [mbind option_bind TLB].
    destruct (update_TLB_wf p (highest_open_frame (local_memory g)) (TLB g)
                (inv_tlb HI)) as (t' & Hup & Hwf').
    rewrite Hup. cbn [mbind option_bind page_table local_memory
      num_page_faults].
    exists (Z.of_nat (length loaded)). eexists. split.
    { rewrite (inv_faults HI), length_app. cbn.
      do 3 f_equal. lia. }
    pose proof (update_TLB_view _ _ _ _ (inv_tlb HI) Hup) as Hview.
    rewrite (inv_hof HI) in *. rewrite Nat2Z.id in *.
    split; [|split; [|split; [lia|done]]].
    2:{ rewrite lookup_app_r by lia. by rewrite Nat.sub_diag. }
    destruct HI. constructor; cbn [page_table local_memory TLB
      num_page_faults frames highest_open_frame]; try done.
    + by rewrite length_insert.
    + by rewrite length_insert.
    + intros i row.
      destruct (decide (i = length loaded)) as [->|Hne].
      * rewrite list_lookup_insert_eq by lia. intros [= <-].
        apply read_page_length.
      * rewrite list_lookup_insert_ne by done. apply inv_rows_len0.
    + rewrite length_app. cbn. lia.
    + rewrite length_app. cbn. lia.
    + apply NoDup_app. split; [done|]. split; [|apply NoDup_singleton].
      intros x Hx ->%list_elem_of_singleton. done.
    + intros x [Hx| ->%list_elem_of_singleton]%elem_of_app; auto.
    + intros i q [[_ Hq]|[-> <-]]%lookup_snoc_Some.
      * rewrite list_lookup_insert_ne; [by apply inv_mapped0|].
        assert (q ≠ p) by (intros ->; apply Hnin;
                           by eapply list_elem_of_lookup_2).
        assert (0 <= q < 256)
          by (apply inv_range0; by eapply list_elem_of_lookup_2).
        lia.
      * rewrite list_lookup_insert_eq by lia. done.
    + intros q Hq [Hql Hqp%not_elem_of_cons]%not_elem_of_app.
      rewrite list_lookup_insert_ne by lia. by apply inv_unmapped0.
    + intros i q [[_ Hq]|[-> <-]]%lookup_snoc_Some.
      * rewrite list_lookup_insert_ne; [by apply inv_mem0|].
        apply lookup_lt_Some in Hq. lia.
      * rewrite list_lookup_insert_eq by lia. done.
    + rewrite Hview. by apply queue_push_NoDup.
    + intros q f. rewrite Hview. intros [Hq|[= -> ->]]%queue_push_elem.
      * destruct (inv_tlb_sound0 _ _ Hq) as (i & Hi & ->).
        exists i. split; [|done]. by apply lookup_app_l_Some.
      * exists (length loaded). split; [|done].
        rewrite lookup_app_r by lia. by rewrite Nat.sub_diag.
Qed.

Lemma touch_elem loaded p : p ∈ touch loaded p.
Proof.
  unfold touch. case_decide; [done|].
  apply elem_of_app. right. by apply list_elem_of_singleton.
Qed.

Lemma touch_old loaded p : p ∈ loaded → touch loaded p = loaded.
Proof. intros Hp. unfold touch. by rewrite decide_True. Qed.

Lemma touch_new loaded p : p ∉ loaded → touch loaded p = loaded ++ [p].
Proof. intros Hp. unfold touch. by rewrite decide_False. Qed.

Lemma touch_prefix loaded p : loaded `prefix_of` touch loaded p.
Proof.
  unfold touch. case_decide; [done|]. by apply prefix_app_r.
Qed.

Lemma resolve_path_spec loaded g va :
  Inv disk_file loaded g →
  resolve_path g va =
  Some (expected_path loaded (tlb_view (TLB g)) (get_page_number va)).
Proof.
  intros HI. unfold resolve_path, expected_path.
  set (p := get_page_number va).
  pose proof (get_page_number_range va) as Hp. fold p in Hp.
  rewrite (search_TLB_view _ _ (inv_tlb HI)). run_bind.
  destruct (decide (p ∈ (tlb_view (TLB g)).*1)) as [Hin|Hnin].
  - apply queue_lookup_elem in Hin.
    destruct (inv_tlb_sound HI _ _ Hin) as (i & _ & ->).
    rewrite decide_False by lia. done.
  - rewrite queue_lookup_miss by done. rewrite decide_True by done.
    destruct (decide (p ∈ loaded)) as [Hl|Hl].
    + apply list_elem_of_lookup_1 in Hl as [i Hi].
      assert (arr_get (page_table g) p = Some (Z.of_nat i)) as ->.
      { apply arr_get_Some. split; [lia|]. by apply (inv_mapped HI). }
      run_bind. rewrite decide_False by lia. done.
    + assert (arr_get (page_table g) p = Some (-1)) as ->.
      { apply arr_get_Some. split; [lia|]. by apply (inv_unmapped HI). }
      run_bind. rewrite decide_True by done. done.
Qed.

(** One turn of the main loop from a state that satisfies the
    invariant. *)
Lemma process_address_spec loaded g l va :
  Inv disk_file loaded g →
  let p := get_page_number va in
  let path := expected_path loaded (tlb_view (TLB g)) p in
  ∃ f v g',
    process_address disk_file va (g, l) =
      Some (Report va (f * 256 + get_offset va) v,
            (g', step_locals path (touch loaded p) l)) ∧
    Inv disk_file (touch loaded p) g' ∧
    touch loaded p !! Z.to_nat f = Some p ∧ 0 <= f ∧
    read_page disk_file p !! Z.to_nat (get_offset va) = Some v ∧
    tlb_view (TLB g') =
      (if decide (path = TLB_hit) then tlb_view (TLB g)
       else queue_push (tlb_view (TLB g)) (p, f)) ∧
    (path = TLB_hit → g' = g).
Proof.
  intros HI p path. unfold process_address. fold p.
  pose proof (get_page_number_range va) as Hp. fold p in Hp.
  pose proof (get_offset_range va) as Ho.
  destruct (lookup_lt_is_Some_2 (read_page disk_file p)
              (Z.to_nat (get_offset va))) as [v Hv];
    [rewrite read_page_length; lia|].
  rewrite (search_TLB_view _ _ (inv_tlb HI)). run_bind.
  subst path. unfold expected_path.
  destruct (decide (p ∈ (tlb_view (TLB g)).*1)) as [Hin|Hnin].
  - (* hit *)
    pose proof (Inv_tlb_in_loaded _ _ _ HI Hin) as Hl.
    apply queue_lookup_elem in Hin.
    destruct (inv_tlb_sound HI _ _ Hin) as (i & Hi & ->).
    rewrite decide_False by lia. run_bind.
    assert (arr_get (frames (local_memory g)) (Z.of_nat i) =
            Some (read_page disk_file p)) as ->.
    { apply arr_get_Some. split; [lia|]. rewrite Nat2Z.id.
      by apply (inv_mem HI). }
    run_bind.
    assert (arr_get (read_page disk_file p) (get_offset va) = Some v) as ->
      by (apply arr_get_Some; split; [lia|done]).
    run_bind.
    exists (Z.of_nat i), v, g. rewrite touch_old by done.
    rewrite Nat2Z.id, decide_True by done.
    split_and!; try done. lia.
  - (* miss *)
    rewrite queue_lookup_miss by done. rewrite decide_True by done.
    destruct (check_page_table_spec loaded g p (get_offset va) HI Hp Hnin)
      as (f & g' & -> & HI' & Hf & Hf0 & Hview & _).
    run_bind.
    rewrite (search_TLB_view _ _ (inv_tlb HI')), Hview.
    rewrite queue_push_lookup by done. run_bind.
    assert (arr_get (frames (local_memory g')) f =
            Some (read_page disk_file p)) as ->.
    { apply arr_get_Some. split; [lia|]. by apply (inv_mem HI'). }
    run_bind.
    assert (arr_get (read_page disk_file p) (get_offset va) = Some v) as ->
      by (apply arr_get_Some; split; [lia|done]).
    run_bind.
    exists f, v, g'.
    assert (step_locals
              (if decide (p ∈ loaded) then Table_hit else Page_fault)
              (touch loaded p) l =
            Locals (num_TLB_hits l) (Z.of_nat (length (touch loaded p)))
                   (num_addresses_processed l + 1)) as ->
      by (by case_decide).
    split_and!; try done.
    + rewrite decide_False by (by case_decide). done.
    + by case_decide.
Qed.
End invariant.

Lemma expected_path_hit loaded (q : list (Z * Z)) p :
  p ∈ q.*1 → expected_path loaded q p = TLB_hit.
Proof. intros Hp. unfold expected_path. by rewrite decide_True. Qed.

Lemma expected_path_miss loaded (q : list (Z * Z)) p :
  p ∉ q.*1 → expected_path loaded q p ≠ TLB_hit.
Proof.
  intros Hp. unfold expected_path. rewrite decide_False by done.
  by case_decide.
Qed.

Lemma expected_path_table loaded (q : list (Z * Z)) p :
  p ∉ q.*1 → p ∈ loaded → expected_path loaded q p = Table_hit.
Proof.
  intros Hp Hl. unfold expected_path.
  rewrite decide_False by done. by rewrite decide_True.
Qed.

Lemma expected_path_fault loaded (q : list (Z * Z)) p :
  p ∉ loaded → p ∉ q.*1 → expected_path loaded q p = Page_fault.
Proof. intros Hl Hp. unfold expected_path. by rewrite !decide_False. Qed.

(** ** Runs *)

Lemma initialize_page_table_zeroed :
  initialize_page_table (page_table zeroed_globals) =
  Some (replicate 256 (-1)).
Proof.
  unfold initialize_page_table, zeroed_globals. cbn [page_table].
  rewrite initialize_page_table_loop_spec
    by (rewrite ?length_replicate; cbn; lia).
  reflexivity.
Qed.

Lemma start_eq : start = Some (initial_globals, Locals 0 0 0).
Proof.
  unfold start. rewrite initialize_page_table_zeroed. reflexivity.
Qed.

Lemma tlb_view_initial : tlb_view (TLB initial_globals) = [].
Proof. reflexivity. Qed.

Lemma initial_state_inv disk_file :
  state_inv disk_file [] (initial_globals, Locals 0 0 0).
Proof.
  split; [|done].
  constructor; rewrite ?tlb_view_initial; unfold initial_globals;
    cbn [fst page_table local_memory TLB frames highest_open_frame
         num_page_faults].
  - apply length_replicate.
  - apply length_replicate.
  - intros i row [-> _]%lookup_replicate. apply length_replicate.
  - unfold tlb_wf, tlb_inv, NUM_TLB_ENTRIES.
    cbn [page_numbers frame_numbers num_filled head_position].
    rewrite !length_replicate. split_and!; try done; lia.
  - done.
  - done.
  - constructor.
  - intros p ?%elem_of_nil. done.
  - intros i p ?. done.
  - intros p Hp _. apply lookup_replicate_2. lia.
  - intros i p ?. done.
  - constructor.
  - intros p f ?%elem_of_nil. done.
Qed.

Section runs.
Variable disk_file : list Z.

Lemma step_ok loaded s va :
  state_inv disk_file loaded s →
  let p := get_page_number va in
  let path := expected_path loaded (tlb_view (TLB s.1)) p in
  ∃ f v s',
    process_address disk_file va s =
      Some (Report va (f * 256 + get_offset va) v, s') ∧
    resolve_path s.1 va = Some path ∧
    state_inv disk_file (touch loaded p) s' ∧
    s'.2 = step_locals path (touch loaded p) s.2 ∧
    touch loaded p !! Z.to_nat f = Some p ∧ 0 <= f ∧
    read_page disk_file p !! Z.to_nat (get_offset va) = Some v ∧
    tlb_view (TLB s'.1) =
      (if decide (path = TLB_hit) then tlb_view (TLB s.1)
       else queue_push (tlb_view (TLB s.1)) (p, f)) ∧
    (path = TLB_hit → s'.1 = s.1).
Proof.
  destruct s as [g l]. intros [HI Hf] p path. cbn [fst snd] in *.
  destruct (process_address_spec disk_file loaded g l va HI)
    as (f & v & g' & Hstep & HI' & Hlk & Hf0 & Hv & Hview & Hsame).
  exists f, v, (g', step_locals path (touch loaded p) l).
  fold p in Hstep, HI', Hlk, Hv, Hview. fold path in Hstep, Hview, Hsame.
  split_and!; try done.
  - by apply (resolve_path_spec disk_file loaded).
  - split; [done|]. cbn [snd]. clear Hstep Hview Hsame.
    subst path. unfold expected_path.
    repeat case_decide; cbn [step_locals num_Pg_faults]; try done.
    rewrite touch_old; [done|]. by eapply Inv_tlb_in_loaded.
Qed.

Lemma process_stream_app a b s :
  process_stream disk_file (a ++ b) s =
  '(rs1, s1) ← process_stream disk_file a s;
  '(rs2, s2) ← process_stream disk_file b s1;
  Some (rs1 ++ rs2, s2).
Proof.
  revert s. induction a as [|va a IH]; intros s.
  - cbn. by destruct (process_stream disk_file b s) as [[??]|].
  - cbn [app process_stream].
    destruct (process_address disk_file va s) as [[r s1]|]; [|done].
    run_bind. rewrite IH.
    destruct (process_stream disk_file a s1) as [[rs1 s2]|]; [|done].
    run_bind.
    by destruct (process_stream disk_file b s2) as [[??]|].
Qed.

Lemma foldl_touch_prefix loaded ps : loaded `prefix_of` foldl touch loaded ps.
Proof.
  revert loaded. induction ps as [|p ps IH]; intros loaded; [done|].
  cbn. etrans; [apply touch_prefix|apply IH].
Qed.

(** The loop never leaves the defined behaviour of C, and keeps the
    invariant. *)
Lemma process_stream_ok stream loaded s :
  state_inv disk_file loaded s →
  ∃ rs s',
    process_stream disk_file stream s = Some (rs, s') ∧
    state_inv disk_file (foldl touch loaded (get_page_number <$> stream)) s' ∧
    num_addresses_processed s'.2 =
      num_addresses_processed s.2 + Z.of_nat (length stream) ∧
    Forall2
      (report_ok disk_file (foldl touch loaded (get_page_number <$> stream)))
      stream rs.
Proof.
  revert loaded s. induction stream as [|va stream IH]; intros loaded s Hs.
  - exists [], s. cbn. split_and!; [done|done|lia|constructor].
  - destruct (step_ok loaded s va Hs)
      as (f & v & s1 & Hstep & _ & Hs1 & Hl & Hlk & Hf0 & Hv & _).
    destruct (IH _ _ Hs1) as (rs & s' & Hrun & Hs' & Hn & Hrs).
    exists (Report va (f * 256 + get_offset va) v :: rs), s'.
    cbn [process_stream fmap list_fmap foldl]. rewrite Hstep.
    run_bind. rewrite Hrun. run_bind.
    split_and!; try done.
    + rewrite Hn, Hl. cbn [length].
      destruct (expected_path _ _ _); cbn; lia.
    + constructor; [|done]. split; [done|]. exists (Z.to_nat f).
      cbn [physical_address value].
      split_and!; [|unfold FRAME_SIZE_BYTES; lia|done].
      eapply prefix_lookup_Some; [done|]. apply foldl_touch_prefix.
Qed.

Lemma main_ok stream :
  ∃ rs s,
    main disk_file stream = Some (rs, s) ∧
    state_inv disk_file (loaded_pages stream) s ∧
    num_addresses_processed s.2 = Z.of_nat (length stream) ∧
    Forall2 (report_ok disk_file (loaded_pages stream)) stream rs.
Proof.
  unfold main. rewrite start_eq. run_bind.
  destruct (process_stream_ok stream [] _ (initial_state_inv disk_file))
    as (rs & s' & Hrun & Hs' & Hn & Hrs).
  exists rs, s'. split_and!; try done.
Qed.

Lemma main_app a b rs s :
  main disk_file a = Some (rs, s) →
  main disk_file (a ++ b) =
  '(rs2, s2) ← process_stream disk_file b s; Some (rs ++ rs2, s2).
Proof.
  unfold main. rewrite start_eq. run_bind.
  rewrite process_stream_app. by intros ->.
Qed.
End runs.

(** ** The buffer never shrinks along a run *)

Lemma queue_push_grows {A} (q : list A) e :
  (length q <= 16)%nat → (length q <= length (queue_push q e))%nat.
Proof.
  unfold queue_push, NUM_TLB_ENTRIES. intros Hq.
  rewrite length_app. case_decide; rewrite ?length_drop; cbn; lia.
Qed.

Lemma tlb_wf_num_filled t :
  tlb_wf t → num_filled t = Z.of_nat (length (tlb_view t)).
Proof.
  intros (_ & _ & Hn & _). rewrite tlb_view_length. lia.
Qed.

Lemma process_stream_num_filled disk_file stream loaded s rs s' :
  state_inv disk_file loaded s →
  process_stream disk_file stream s = Some (rs, s') →
  num_filled (TLB s.1) <= num_filled (TLB s'.1).
Proof.
  revert loaded s rs. induction stream as [|va stream IH];
    intros loaded s rs Hs Hrun.
  - cbn in Hrun. injection Hrun as _ <-. lia.
  - destruct (step_ok disk_file loaded s va Hs)
      as (f & v & s1 & Hstep & _ & Hs1 & _ & _ & _ & _ & Hview & _).
    cbn [process_stream] in Hrun. rewrite Hstep in Hrun.
    run_bind in Hrun.
    destruct (process_stream disk_file stream s1) as [[rs1 s2]|] eqn:Hrest;
      [|done].
    run_bind in Hrun. injection Hrun as _ <-.
    specialize (IH _ _ _ Hs1 Hrest).
    destruct Hs as [HI _], Hs1 as [HI1 _].
    rewrite (tlb_wf_num_filled _ (inv_tlb HI)),
            (tlb_wf_num_filled _ (inv_tlb HI1)) in *.
    rewrite Hview in IH.
    assert (length (tlb_view (TLB s.1)) <= 16)%nat as Hle.
    { pose proof (inv_tlb HI) as (_ & _ & Hn & _).
      rewrite tlb_view_length. unfold NUM_TLB_ENTRIES in Hn. lia. }
    pose proof (queue_push_grows (tlb_view (TLB s.1)) (get_page_number va, f)
                  Hle).
    case_decide; lia.
Qed.

(** ** The statistics along a run *)

Lemma main_eq disk_file stream :
  main disk_file stream = process_stream disk_file stream initial_state.
Proof. unfold main. rewrite start_eq. reflexivity. Qed.

Lemma occurrences_cons path q paths :
  occurrences path (q :: paths) =
  (if decide (q = path) then 1 else 0) + occurrences path paths.
Proof.
  unfold occurrences. rewrite filter_cons.
  case_decide; cbn [length]; lia.
Qed.

Lemma occurrences_nonneg path paths : 0 <= occurrences path paths.
Proof. unfold occurrences. lia. Qed.

Lemma occurrences_total paths :
  occurrences TLB_hit paths + occurrences Table_hit paths
    + occurrences Page_fault paths = Z.of_nat (length paths).
Proof.
  induction paths as [|q paths IH]; [done|].
  rewrite !occurrences_cons. cbn [length].
  destruct q; repeat case_decide; try congruence; lia.
Qed.

Lemma locals_along_length paths l :
  length (locals_along paths l) = S (length paths).
Proof.
  revert l. induction paths as [|q paths IH]; intros l; [done|].
  cbn [locals_along length]. by rewrite IH.
Qed.

Lemma locals_along_last paths l :
  last (locals_along paths l) =
  Some (Locals (num_TLB_hits l + occurrences TLB_hit paths)
               (num_Pg_faults l + occurrences Page_fault paths)
               (num_addresses_processed l + Z.of_nat (length paths))).
Proof.
  revert l. induction paths as [|q paths IH]; intros l.
  - cbn. destruct l; cbn. do 2 f_equal; unfold occurrences; cbn; lia.
  - cbn [locals_along]. rewrite last_cons, IH.
    rewrite !occurrences_cons. cbn [count_path num_TLB_hits num_Pg_faults
      num_addresses_processed length].
    do 2 f_equal; lia.
Qed.

Lemma locals_along_above paths l l' :
  l' ∈ locals_along paths l → locals_le l l'.
Proof.
  revert l. induction paths as [|q paths IH]; intros l.
  - cbn. intros ->%list_elem_of_singleton. unfold locals_le. lia.
  - cbn [locals_along]. intros [->|Hin]%elem_of_cons.
    + unfold locals_le. lia.
    + specialize (IH _ Hin). unfold locals_le, count_path in *.
      cbn [num_TLB_hits num_Pg_faults num_addresses_processed] in IH.
      repeat case_decide; lia.
Qed.

Lemma locals_along_monotone paths l (i j : nat) l1 l2 :
  (i <= j)%nat →
  locals_along paths l !! i = Some l1 →
  locals_along paths l !! j = Some l2 →
  locals_le l1 l2.
Proof.
  revert l i j. induction paths as [|q paths IH]; intros l i j Hij Hi Hj.
  - cbn in Hi, Hj. destruct i, j; try done.
    injection Hi as <-. injection Hj as <-. unfold locals_le. lia.
  - cbn [locals_along] in Hi, Hj. destruct i as [|i].
    + injection Hi as <-. apply (locals_along_above (q :: paths)).
      cbn [locals_along]. by eapply list_elem_of_lookup_2.
    + destruct j as [|j]; [lia|]. cbn in Hi, Hj.
      eapply (IH _ i j); [lia|done|done].
Qed.


Section traces.
Variable disk_file : list Z.

Lemma step_counts loaded s va :
  state_inv disk_file loaded s →
  step_locals
    (expected_path loaded (tlb_view (TLB s.1)) (get_page_number va))
    (touch loaded (get_page_number va)) s.2 =
  count_path
    (expected_path loaded (tlb_view (TLB s.1)) (get_page_number va)) s.2.
Proof.
  intros [HI Hf]. unfold expected_path.
  destruct (decide (get_page_number va ∈ (tlb_view (TLB s.1)).*1))
    as [Hin|Hnin].
  - unfold step_locals, count_path.
    rewrite decide_True, decide_False by done. f_equal; lia.
  - destruct (decide (get_page_number va ∈ loaded)) as [Hl|Hl].
    + unfold step_locals, count_path.
      rewrite !decide_False by done. rewrite touch_old by done.
      f_equal; lia.
    + unfold step_locals, count_path.
      rewrite decide_False, decide_True by done. rewrite touch_new by done.
      rewrite length_app. cbn [length]. f_equal; lia.
Qed.

(** The paths and the states of a run, and how the statistics follow
    the paths. *)
Lemma stream_trace_spec stream loaded s :
  state_inv disk_file loaded s →
  ∃ rs s',
    process_stream disk_file stream s = Some (rs, s') ∧
    length (stream_paths disk_file stream s) = length stream ∧
    last (stream_states disk_file stream s) = Some s' ∧
    (stream_states disk_file stream s).*2 =
      locals_along (stream_paths disk_file stream s) s.2.
Proof.
  revert loaded s. induction stream as [|va stream IH]; intros loaded s Hs.
  - exists [], s. done.
  - destruct (step_ok disk_file loaded s va Hs)
      as (f & v & s1 & Hstep & Hpath & Hs1 & Hl & _).
    destruct (IH _ _ Hs1) as (rs & s' & Hrun & Hlen & Hlast & Htr).
    exists (Report va (f * 256 + get_offset va) v :: rs), s'.
    cbn [process_stream stream_paths stream_states].
    rewrite Hpath, Hstep. run_bind. rewrite Hrun.
    cbn [mbind option_bind length fmap list_fmap locals_along].
    split_and!.
    + done.
    + by rewrite Hlen.
    + rewrite last_cons, Hlast. done.
    + f_equal. fold (@fmap list _ _ _ (@snd globals locals)).
      rewrite Htr. f_equal. rewrite Hl. by apply step_counts.
Qed.
End traces.

(** ** The frames handed out along a run *)

Lemma foldl_touch_length loaded ps :
  (length loaded <= length (foldl touch loaded ps))%nat.
Proof. apply prefix_length, foldl_touch_prefix. Qed.

Lemma stream_allocations_spec disk_file stream loaded s :
  state_inv disk_file loaded s →
  stream_allocations disk_file stream s =
  seqZ (Z.of_nat (length loaded))
       (Z.of_nat (length (foldl touch loaded (get_page_number <$> stream)))
        - Z.of_nat (length loaded)).
Proof.
  revert loaded s. induction stream as [|va stream IH]; intros loaded s Hs.
  - cbn. rewrite Z.sub_diag. done.
  - destruct (step_ok disk_file loaded s va Hs)
      as (f & v & s1 & Hstep & Hpath & Hs1 & _).
    cbn [stream_allocations fmap list_fmap foldl].
    rewrite Hpath, Hstep, (IH _ _ Hs1).
    pose proof (foldl_touch_length (touch loaded (get_page_number va))
                  (get_page_number <$> stream)) as Hlen.
    destruct Hs as [HI _].
    pose proof (get_page_number_range va) as Hp.
    unfold expected_path.
    destruct (decide (get_page_number va ∈ (tlb_view (TLB s.1)).*1))
      as [Hin|Hnin].
    { rewrite touch_old by (by eapply Inv_tlb_in_loaded). done. }
    destruct (decide (get_page_number va ∈ loaded)) as [Hl|Hl].
    { rewrite touch_old by done. done. }
    pose proof (Inv_room _ _ _ _ HI Hp Hl) as Hroom.
    rewrite load_page_disk_to_memory_spec;
      [|rewrite (inv_hof HI); lia|apply HI|apply HI].
    rewrite (inv_hof HI). rewrite touch_new in * by done.
    rewrite length_app in *. cbn [length] in *.
    rewrite (seqZ_cons (Z.of_nat (length loaded))) by lia.
    f_equal. f_equal; lia.
Qed.

(** ** FIFO order *)

(** Pushing entries one by one into an empty queue keeps the 16 pushed
    last, the oldest of them first. *)
Lemma foldl_queue_push {A} (es : list A) :
  foldl queue_push [] es = drop (length es - 16) es.
Proof.
  induction es as [|e es IH] using rev_ind; [done|].
  rewrite foldl_snoc, IH. unfold queue_push, NUM_TLB_ENTRIES.
  rewrite length_drop, length_app. cbn [length].
  case_decide as Hfull.
  - rewrite drop_drop, drop_app_le by lia. do 2 f_equal. lia.
  - replace (length es - 16)%nat with 0%nat by lia.
    replace (length es + 1 - 16)%nat with 0%nat by lia. done.
Qed.

Lemma insert_all_view es t :
  tlb_wf t →
  ∃ t', insert_all es t = Some t' ∧ tlb_wf t' ∧
        tlb_view t' = foldl queue_push (tlb_view t) es.
Proof.
  revert t. induction es as [|[p f] es IH]; intros t Hwf.
  - exists t. done.
  - destruct (update_TLB_wf p f t Hwf) as (t1 & Hup & Hwf1).
    destruct (IH t1 Hwf1) as (t' & Hall & Hwf' & Hview).
    exists t'. unfold insert_all in *. cbn [foldl mbind option_bind fst snd].
    rewrite Hup, Hall. split_and!; [done|done|].
    by rewrite Hview, (update_TLB_view _ _ _ _ Hwf Hup).
Qed.

Lemma initialize_TLB_wf t :
  tlb_wf t → tlb_wf (initialize_TLB t) ∧ tlb_view (initialize_TLB t) = [].
Proof.
  intros (Hlp & Hlf & _). split; [|done].
  unfold tlb_wf, tlb_inv, initialize_TLB, NUM_TLB_ENTRIES in *. cbn.
  split_and!; try done; lia.
Qed.

(** The slot at the head of a full buffer is the first in scan order. *)
Lemma tlb_view_head t :
  tlb_wf t → num_filled t = NUM_TLB_ENTRIES →
  ∃ pn fn,
    arr_get (page_numbers t) (head_position t) = Some pn ∧
    arr_get (frame_numbers t) (head_position t) = Some fn ∧
    head (tlb_view t) = Some (pn, fn).
Proof.
  intros (Hlp & Hlf & Hn & Hh & _) Hfull. unfold NUM_TLB_ENTRIES in *.
  destruct (arr_get_in_range (page_numbers t) (head_position t)) as [pn Hpn];
    [lia|].
  destruct (arr_get_in_range (frame_numbers t) (head_position t)) as [fn Hfn];
    [lia|].
  exists pn, fn. split_and!; [done|done|].
  rewrite head_lookup, tlb_view_lookup by (cbn; lia).
  unfold tlb_slot, NUM_TLB_ENTRIES. cbn [Z.of_nat].
  rewrite Z.add_0_r, Z.rem_mod_nonneg, Z.mod_small by lia.
  apply arr_get_Some in Hpn as [_ Hpn], Hfn as [_ Hfn].
  by rewrite (list_lookup_total_correct _ _ _ Hpn),
             (list_lookup_total_correct _ _ _ Hfn).
Qed.

Lemma update_TLB_spare p f t :
  tlb_wf t → num_filled t < NUM_TLB_ENTRIES →
  update_TLB p f t =
  Some (Tlb (<[Z.to_nat (num_filled t) := p]> (page_numbers t))
            (<[Z.to_nat (num_filled t) := f]> (frame_numbers t))
            (num_filled t + 1) (head_position t)).
Proof.
  intros (Hlp & Hlf & Hn & _) Hlt. unfold update_TLB, NUM_TLB_ENTRIES in *.
  rewrite decide_False by lia. by rewrite !arr_set_in_range by lia.
Qed.

Lemma update_TLB_full p f t :
  tlb_wf t → num_filled t = NUM_TLB_ENTRIES →
  update_TLB p f t =
  Some (Tlb (<[Z.to_nat (head_position t) := p]> (page_numbers t))
            (<[Z.to_nat (head_position t) := f]> (frame_numbers t))
            (num_filled t) ((head_position t + 1) mod NUM_TLB_ENTRIES)).
Proof.
  intros (Hlp & Hlf & Hn & Hh & _) Hfull.
  unfold update_TLB, NUM_TLB_ENTRIES in *.
  rewrite decide_True by lia. rewrite !arr_set_in_range by lia.
  run_bind. by rewrite Z.rem_mod_nonneg by lia.
Qed.

(** A stream of pages none of which was referenced before: every address
    faults, and the pages enter the buffer in the order of the stream. *)
Lemma fresh_run disk_file stream loaded s :
  state_inv disk_file loaded s →
  NoDup (get_page_number <$> stream) →
  (∀ p, p ∈ get_page_number <$> stream → p ∉ loaded) →
  ∃ rs s',
    process_stream disk_file stream s = Some (rs, s') ∧
    state_inv disk_file (loaded ++ (get_page_number <$> stream)) s' ∧
    (tlb_view (TLB s'.1)).*1 =
      foldl queue_push (tlb_view (TLB s.1)).*1 (get_page_number <$> stream) ∧
    stream_paths disk_file stream s = replicate (length stream) Page_fault.
Proof.
  revert loaded s. induction stream as [|va stream IH];
    intros loaded s Hs Hnd Hfresh.
  - exists [], s. rewrite app_nil_r. done.
  - cbn [fmap list_fmap] in Hnd, Hfresh.
    apply NoDup_cons in Hnd as [Hva Hnd].
    assert (get_page_number va ∉ loaded) as Hnl
      by (apply Hfresh; left).
    assert (get_page_number va ∉ (tlb_view (TLB s.1)).*1) as Hmiss.
    { intros Hin. apply Hnl. destruct Hs as [HI _].
      by eapply Inv_tlb_in_loaded. }
    destruct (step_ok disk_file loaded s va Hs)
      as (f & v & s1 & Hstep & Hpath & Hs1 & _ & _ & _ & _ & Hview & _).
    rewrite (expected_path_fault _ _ _ Hnl Hmiss) in Hpath, Hview.
    rewrite decide_False in Hview by done.
    rewrite touch_new in Hs1 by done.
    destruct (IH _ _ Hs1 Hnd) as (rs & s' & Hrun & Hs' & Hv' & Hpaths).
    { intros p Hp [Hpl|Hpe]%elem_of_app.
      - by apply (Hfresh p); [right|].
      - apply list_elem_of_singleton in Hpe as ->. done. }
    exists (Report va (f * 256 + get_offset va) v :: rs), s'.
    cbn [process_stream stream_paths fmap list_fmap foldl length replicate].
    rewrite Hpath, Hstep. run_bind. rewrite Hrun.
    run_bind. split_and!.
    + done.
    + by rewrite cons_middle, app_assoc.
    + rewrite Hv', Hview, queue_push_fmap. done.
    + by rewrite Hpaths.
Qed.

(** Every counter, in every state of a run, lies between 0 and the number
    of addresses of the stream: the C integers do not overflow on a
    stream of fewer than 2^31 addresses. *)
Lemma counters_bounded disk_file stream l :
  l ∈ (stream_states disk_file stream initial_state).*2 →
  0 <= num_TLB_hits l <= Z.of_nat (length stream) ∧
  0 <= num_Pg_faults l <= Z.of_nat (length stream) ∧
  0 <= num_addresses_processed l <= Z.of_nat (length stream).
Proof.
  destruct (stream_trace_spec disk_file stream [] initial_state
              (initial_state_inv disk_file))
    as (rs & s & _ & Hlen & _ & Htr).
  rewrite Htr. cbn [initial_state snd].
  set (paths := stream_paths disk_file stream initial_state) in *.
  intros Hin.
  pose proof (locals_along_above _ _ _ Hin) as (H1 & H2 & H3).
  apply list_elem_of_lookup_1 in Hin as [i Hi].
  pose proof (lookup_lt_Some _ _ _ Hi) as Hlt.
  rewrite locals_along_length in Hlt.
  pose proof (locals_along_last paths (Locals 0 0 0)) as Hlast.
  rewrite last_lookup, locals_along_length in Hlast. cbn [pred] in Hlast.
  pose proof (locals_along_monotone _ _ i (length paths) _ _
                ltac:(lia) Hi Hlast) as (H4 & H5 & H6).
  pose proof (occurrences_total paths).
  pose proof (occurrences_nonneg TLB_hit paths).
  pose proof (occurrences_nonneg Table_hit paths).
  pose proof (occurrences_nonneg Page_fault paths).
  cbn [num_TLB_hits num_Pg_faults num_addresses_processed] in *. lia.
Qed.

(** ** Streams that fit the buffer, and stale array contents *)

(** While no more than 16 pages have been loaded and the buffer holds
    them all, every reference is a buffer hit or a page fault. *)
Lemma resident_run disk_file stream loaded s :
  state_inv disk_file loaded s →
  (tlb_view (TLB s.1)).*1 = loaded →
  (length (foldl touch loaded (get_page_number <$> stream)) <= 16)%nat →
  ∃ rs s',
    process_stream disk_file stream s = Some (rs, s') ∧
    (tlb_view (TLB s'.1)).*1 =
      foldl touch loaded (get_page_number <$> stream) ∧
    Forall (λ path, path ≠ Table_hit) (stream_paths disk_file stream s) ∧
    num_TLB_hits s'.2 + Z.of_nat
        (length (foldl touch loaded (get_page_number <$> stream)))
      = num_TLB_hits s.2 + Z.of_nat (length stream)
          + Z.of_nat (length loaded).
Proof.
  revert loaded s. induction stream as [|va stream IH];
    intros loaded s Hs Hheld Hfit.
  - exists [], s. cbn. split_and!; [done|done|constructor|lia].
  - cbn [fmap list_fmap foldl] in Hfit |- *.
    destruct (step_ok disk_file loaded s va Hs)
      as (f & v & s1 & Hstep & Hpath & Hs1 & Hl & _ & _ & _ & Hview & _).
    pose proof (foldl_touch_length (touch loaded (get_page_number va))
                  (get_page_number <$> stream)) as Hlen.
    assert ((tlb_view (TLB s1.1)).*1 = touch loaded (get_page_number va) ∧
            expected_path loaded (tlb_view (TLB s.1)) (get_page_number va)
              ≠ Table_hit ∧
            num_TLB_hits s1.2 + Z.of_nat
                (length (touch loaded (get_page_number va)))
              = num_TLB_hits s.2 + 1 + Z.of_nat (length loaded))
      as (Hheld1 & Hne & Hhits).
    { destruct (decide (get_page_number va ∈ loaded)) as [Hin|Hnin].
      - assert (get_page_number va ∈ (tlb_view (TLB s.1)).*1) as Hin'
          by (by rewrite Hheld).
        rewrite (expected_path_hit _ _ _ Hin') in *.
        rewrite decide_True in Hview by done.
        rewrite touch_old by done. rewrite Hl.
        split_and!; [by rewrite Hview|done|cbn; lia].
      - assert (get_page_number va ∉ (tlb_view (TLB s.1)).*1) as Hnin'
          by (by rewrite Hheld).
        rewrite (expected_path_fault _ _ _ Hnin Hnin') in *.
        rewrite decide_False in Hview by done.
        rewrite touch_new in * by done. rewrite Hl.
        rewrite length_app in *. cbn [length] in *.
        split_and!; [|done|cbn; lia].
        rewrite Hview, queue_push_fmap. unfold queue_push.
        rewrite decide_False; [by rewrite Hheld|].
        rewrite Hheld. unfold NUM_TLB_ENTRIES. lia. }
    destruct (IH _ _ Hs1 Hheld1 Hfit) as (rs & s' & Hrun & Hv' & Hp' & Hh').
    exists (Report va (f * 256 + get_offset va) v :: rs), s'.
    cbn [process_stream stream_paths length]. rewrite Hpath, Hstep.
    run_bind. rewrite Hrun. run_bind. split_and!.
    + reflexivity.
    + exact Hv'.
    + constructor; [exact Hne|exact Hp'].
    + lia.
Qed.

(** Two states with the same pages loaded, the same entries in scan order
    and the same statistics behave alike: whatever else their arrays
    hold, they produce the same reports and the same statistics. *)
Lemma process_stream_sim disk_file stream loaded s1 s2 :
  state_inv disk_file loaded s1 →
  state_inv disk_file loaded s2 →
  tlb_view (TLB s1.1) = tlb_view (TLB s2.1) →
  s1.2 = s2.2 →
  ∃ rs s1' s2',
    process_stream disk_file stream s1 = Some (rs, s1') ∧
    process_stream disk_file stream s2 = Some (rs, s2') ∧
    tlb_view (TLB s1'.1) = tlb_view (TLB s2'.1) ∧
    s1'.2 = s2'.2.
Proof.
  revert loaded s1 s2. induction stream as [|va stream IH];
    intros loaded s1 s2 Hs1 Hs2 Hview Hl.
  - exists [], s1, s2. done.
  - destruct (step_ok disk_file loaded s1 va Hs1)
      as (f1 & v1 & t1 & Hstep1 & _ & Ht1 & Hl1 & Hf1 & Hf10 & Hv1 & Hw1 & _).
    destruct (step_ok disk_file loaded s2 va Hs2)
      as (f2 & v2 & t2 & Hstep2 & _ & Ht2 & Hl2 & Hf2 & Hf20 & Hv2 & Hw2 & _).
    rewrite <- Hview in Hl2, Hw2. rewrite <- Hl in Hl2.
    pose proof (NoDup_lookup _ _ _ _ (inv_nodup (proj1 Ht1)) Hf1 Hf2) as Hff.
    assert (f2 = f1) as -> by lia.
    assert (v2 = v1) as -> by congruence.
    destruct (IH _ t1 t2 Ht1 Ht2) as (rs & t1' & t2' & Hr1 & Hr2 & Hv' & Hl').
    { by rewrite Hw1, Hw2. }
    { by rewrite Hl1, Hl2. }
    exists (Report va (f1 * 256 + get_offset va) v1 :: rs), t1', t2'.
    cbn [process_stream]. rewrite Hstep1, Hstep2. run_bind.
    rewrite Hr1, Hr2. run_bind. done.
Qed.

(** From here on the program is used through the lemmas above only. *)
#[local] Opaque main start process_stream process_address.

(** ** Pages and offsets of addresses *)

Lemma foldl_touch_elem p loaded ps :
  p ∈ foldl touch loaded ps ↔ p ∈ loaded ∨ p ∈ ps.
Proof.
  revert loaded. induction ps as [|q ps IH]; intros loaded; cbn [foldl].
  - split; [by left|]. by intros [?|?%elem_of_nil].
  - rewrite IH. unfold touch. case_decide.
    + rewrite elem_of_cons. split; [tauto|]. intros [?|[->|?]]; tauto.
    + rewrite elem_of_app, list_elem_of_singleton, elem_of_cons. tauto.
Qed.

Lemma loaded_pages_elem p stream :
  p ∈ loaded_pages stream ↔ p ∈ get_page_number <$> stream.
Proof.
  unfold loaded_pages. rewrite foldl_touch_elem.
  split; [|by right]. by intros [?%elem_of_nil|?].
Qed.

Lemma loaded_pages_app a b :
  loaded_pages (a ++ b) = foldl touch (loaded_pages a) (get_page_number <$> b).
Proof. unfold loaded_pages. by rewrite fmap_app, foldl_app. Qed.

Lemma address_of_page_offset P k :
  0 <= P < 256 → 0 <= k < 256 →
  get_page_number (P * 256 + k) = P ∧ get_offset (P * 256 + k) = k.
Proof.
  intros HP Hk. split.
  - rewrite get_page_number_shift_mask.
    change 255 with (Z.ones 8). rewrite Z.land_ones, Z.shiftr_div_pow2 by lia.
    change (2 ^ 8) with 256. Z.div_mod_to_equations. lia.
  - unfold get_offset, OFFSET_MASK.
    change 255 with (Z.ones 8). rewrite Z.land_ones by lia.
    change (2 ^ 8) with 256. Z.div_mod_to_equations. lia.
Qed.

(** In a state that satisfies the invariant, the page table tells which
    pages are loaded. *)
Lemma Inv_page_table disk_file loaded g p f :
  Inv disk_file loaded g → 0 <= p < 256 →
  arr_get (page_table g) p = Some f →
  (f = -1 ∧ p ∉ loaded) ∨ (0 <= f ∧ loaded !! Z.to_nat f = Some p).
Proof.
  intros HI Hp [_ Hf]%arr_get_Some.
  destruct (decide (p ∈ loaded)) as [Hin|Hnin].
  - right. apply list_elem_of_lookup_1 in Hin as [i Hi].
    rewrite (inv_mapped HI _ _ Hi) in Hf. injection Hf as <-.
    rewrite Nat2Z.id. split; [lia|done].
  - left. rewrite (inv_unmapped HI _ Hp Hnin) in Hf. by injection Hf as <-.
Qed.

Lemma Inv_frame_unique disk_file loaded g p (i j : nat) :
  Inv disk_file loaded g →
  loaded !! i = Some p → loaded !! j = Some p → i = j.
Proof. intros HI. apply NoDup_lookup, HI. Qed.

(** ** First touch *)

(** C1.  The first reference to a page is a page fault: after any stream
    [pre] in which the page of [va] does not occur, the buffer misses for
    that page, its page-table entry is [-1], so [process_address] takes the
    page-table path and counts one more fault (and no hit), whatever the
    buffer holds. *)
Theorem first_touch_faults (disk_file pre : list Z) (va : Z) :
  get_page_number va ∉ get_page_number <$> pre →
  ∃ rs s r s',
    main disk_file pre = Some (rs, s) ∧
    search_TLB (TLB s.1) (get_page_number va) = Some (-1) ∧
    arr_get (page_table s.1) (get_page_number va) = Some (-1) ∧
    resolve_path s.1 va = Some Page_fault ∧
    process_address disk_file va s = Some (r, s') ∧
    num_Pg_faults s'.2 = num_Pg_faults s.2 + 1 ∧
    num_TLB_hits s'.2 = num_TLB_hits s.2.
Proof.
  intros Hfresh.
  destruct (main_ok disk_file pre) as (rs & s & Hmain & Hs & _).
  rewrite <- loaded_pages_elem in Hfresh.
  pose proof Hs as [HI Hfaults].
  assert (get_page_number va ∉ (tlb_view (TLB s.1)).*1) as Hmiss
    by (intros Hin; apply Hfresh; by eapply Inv_tlb_in_loaded).
  destruct (step_ok disk_file _ s va Hs)
    as (f & v & s' & Hstep & Hpath & _ & Hl & _).
  assert (expected_path (loaded_pages pre) (tlb_view (TLB s.1))
            (get_page_number va) = Page_fault) as Hexp.
  { unfold expected_path. by rewrite !decide_False. }
  rewrite Hexp in Hpath, Hl.
  exists rs, s, (Report va (f * 256 + get_offset va) v), s'.
  split_and!.
  - exact Hmain.
  - rewrite (search_TLB_view _ _ (inv_tlb HI)).
    by rewrite queue_lookup_miss.
  - apply arr_get_Some. pose proof (get_page_number_range va).
    split; [lia|]. by apply (inv_unmapped HI).
  - exact Hpath.
  - exact Hstep.
  - rewrite Hl, Hfaults, touch_new by exact Hfresh.
    cbn [step_locals num_Pg_faults]. rewrite length_app. cbn [length]. lia.
  - rewrite Hl. reflexivity.
Qed.

Lemma first_touch_faults_witness :
  ∃ rs s r s',
    main [] [] = Some (rs, s) ∧
    search_TLB (TLB s.1) (get_page_number 0) = Some (-1) ∧
    arr_get (page_table s.1) (get_page_number 0) = Some (-1) ∧
    resolve_path s.1 0 = Some Page_fault ∧
    process_address [] 0 s = Some (r, s') ∧
    num_Pg_faults s'.2 = num_Pg_faults s.2 + 1 ∧
    num_TLB_hits s'.2 = num_TLB_hits s.2.
Proof.
  apply (first_touch_faults [] [] 0). simpl. apply not_elem_of_nil.
Defined.

(** ** Stability of the page table *)

Lemma main_state_inv disk_file hist rs s :
  main disk_file hist = Some (rs, s) →
  state_inv disk_file (loaded_pages hist) s.
Proof.
  intros Hmain.
  destruct (main_ok disk_file hist) as (rs0 & s0 & Hmain0 & Hs & _).
  rewrite Hmain in Hmain0. by injection Hmain0 as -> ->.
Qed.

(** The buffer answers for a page with the frame of that page, or [-1]. *)
Lemma search_TLB_frame disk_file loaded g p (f : nat) :
  Inv disk_file loaded g → loaded !! f = Some p →
  search_TLB (TLB g) p = Some (Z.of_nat f) ∨ search_TLB (TLB g) p = Some (-1).
Proof.
  intros HI Hf. rewrite (search_TLB_view _ _ (inv_tlb HI)).
  destruct (decide (p ∈ (tlb_view (TLB g)).*1)) as [Hin|Hnin].
  - left. apply queue_lookup_elem in Hin.
    destruct (inv_tlb_sound HI _ _ Hin) as (i & Hi & ->).
    by rewrite (Inv_frame_unique _ _ _ _ _ _ HI Hi Hf).
  - right. by rewrite queue_lookup_miss.
Qed.

(** C2.  Once the page table maps page [p] to frame [f], it does so for
    the rest of the run: after any further addresses [more] the entry is
    still [f], the buffer answers [f] or misses, and every report for an
    address of page [p] has the physical address [f * 256 + offset]. *)
Theorem page_table_entry_stable (disk_file hist more : list Z) (p f : Z)
    (rs : list report) (s : globals * locals) :
  main disk_file hist = Some (rs, s) →
  0 <= p < 256 →
  arr_get (page_table s.1) p = Some f →
  f ≠ -1 →
  ∃ rs' s',
    main disk_file (hist ++ more) = Some (rs ++ rs', s') ∧
    arr_get (page_table s'.1) p = Some f ∧
    (search_TLB (TLB s'.1) p = Some f ∨
     search_TLB (TLB s'.1) p = Some (-1)) ∧
    Forall (λ r, get_page_number (virtual_address r) = p →
                 physical_address r =
                   f * FRAME_SIZE_BYTES + get_offset (virtual_address r)) rs'.
Proof.
  intros Hmain Hp Hget Hf.
  pose proof (main_state_inv _ _ _ _ Hmain) as Hs.
  destruct (process_stream_ok disk_file more _ s Hs)
    as (rs' & s' & Hrun & [HI' _] & _ & Hrs).
  destruct Hs as [HI _].
  destruct (Inv_page_table _ _ _ _ _ HI Hp Hget) as [[? _]|[Hf0 Hlk]];
    [contradiction|].
  assert (foldl touch (loaded_pages hist) (get_page_number <$> more)
            !! Z.to_nat f = Some p) as Hlk'.
  { eapply prefix_lookup_Some; [exact Hlk|apply foldl_touch_prefix]. }
  exists rs', s'. split_and!.
  - rewrite (main_app _ _ _ _ _ Hmain), Hrun. reflexivity.
  - apply arr_get_Some. split; [lia|].
    rewrite (inv_mapped HI' _ _ Hlk'). f_equal. lia.
  - destruct (search_TLB_frame _ _ _ _ _ HI' Hlk') as [Hh|Hm].
    + left. rewrite Hh. f_equal. lia.
    + by right.
  - apply Forall_forall. intros r [i Hi]%list_elem_of_lookup_1 Hpage.
    destruct (Forall2_lookup_r _ _ _ _ _ Hrs Hi)
      as (va & _ & Hva & f' & Hf' & Hphys & _).
    rewrite Hva in *. rewrite Hpage in Hf'.
    rewrite (Inv_frame_unique _ _ _ _ _ _ HI' Hf' Hlk') in Hphys.
    rewrite Hphys, Z2Nat.id by lia. reflexivity.
Qed.

Lemma page_table_entry_stable_witness :
  ∃ rs s rs' s',
    main [] [0] = Some (rs, s) ∧
    main [] ([0] ++ [1]) = Some (rs ++ rs', s') ∧
    arr_get (page_table s'.1) 0 = Some 0 ∧
    (search_TLB (TLB s'.1) 0 = Some 0 ∨
     search_TLB (TLB s'.1) 0 = Some (-1)) ∧
    Forall (λ r, get_page_number (virtual_address r) = 0 →
                 physical_address r =
                   0 * FRAME_SIZE_BYTES + get_offset (virtual_address r)) rs'.
Proof.
  assert (∃ rs s, main [] [0] = Some (rs, s) ∧
                  arr_get (page_table s.1) 0 = Some 0)
    as (rs & s & Hmain & Hget).
  { eexists _, _. split; [vm_compute; reflexivity|]. vm_compute. reflexivity. }
  exists rs, s.
  destruct (page_table_entry_stable [] [0] [1] 0 0 rs s Hmain ltac:(lia) Hget
              ltac:(lia)) as (rs' & s' & H).
  exists rs', s'. split; [exact Hmain|exact H].
Defined.

(** ** No page is held twice *)

Lemma tlb_view_pages_lookup t (index : Z) :
  tlb_wf t → 0 <= index < num_filled t →
  (tlb_view t).*1 !! Z.to_nat index =
  page_numbers t !! Z.to_nat (tlb_slot t index).
Proof.
  intros Hwf Hi. rewrite list_lookup_fmap, tlb_view_lookup by lia.
  rewrite Z2Nat.id by lia. cbn [fmap option_fmap option_map fst].
  destruct Hwf as (Hlp & _ & Hinv).
  pose proof (tlb_slot_held t index Hinv Hi) as Hs.
  destruct Hinv as (Hn & _). unfold NUM_TLB_ENTRIES in *.
  destruct (lookup_lt_is_Some_2 (page_numbers t) (Z.to_nat (tlb_slot t index)))
    as [pn Hpn]; [lia|].
  by rewrite Hpn, (list_lookup_total_correct _ _ _ Hpn).
Qed.

Lemma tlb_held_NoDup t :
  tlb_wf t → NoDup (tlb_view t).*1 →
  NoDup (take (Z.to_nat (num_filled t)) (page_numbers t)).
Proof.
  intros Hwf Hnd. apply NoDup_alt. intros i j x Hi Hj.
  apply lookup_take_Some in Hi as [Hi Hilt], Hj as [Hj Hjlt].
  pose proof Hwf as (_ & _ & Hinv).
  destruct (tlb_slot_surj t (Z.of_nat i) Hinv) as (a & Ha & Hsa); [lia|].
  destruct (tlb_slot_surj t (Z.of_nat j) Hinv) as (b & Hb & Hsb); [lia|].
  assert ((tlb_view t).*1 !! Z.to_nat a = Some x) as Hva
    by (rewrite tlb_view_pages_lookup, Hsa, Nat2Z.id by done; exact Hi).
  assert ((tlb_view t).*1 !! Z.to_nat b = Some x) as Hvb
    by (rewrite tlb_view_pages_lookup, Hsb, Nat2Z.id by done; exact Hj).
  pose proof (NoDup_lookup _ _ _ _ Hnd Hva Hvb) as Hab.
  assert (a = b) as -> by lia. lia.
Qed.

(** C4.  After any stream, the slots of the buffer in use (the first
    [num_filled] ones) hold pairwise different page numbers, and so do the
    entries in scan order. *)
Theorem tlb_pages_distinct (disk_file hist : list Z) :
  ∃ rs s,
    main disk_file hist = Some (rs, s) ∧
    NoDup (take (Z.to_nat (num_filled (TLB s.1))) (page_numbers (TLB s.1))) ∧
    NoDup (tlb_view (TLB s.1)).*1.
Proof.
  destruct (main_ok disk_file hist) as (rs & s & Hmain & [HI _] & _).
  exists rs, s. split_and!.
  - exact Hmain.
  - apply tlb_held_NoDup; [apply (inv_tlb HI)|apply (inv_tlb_nodup HI)].
  - apply (inv_tlb_nodup HI).
Qed.

(** ** The reported translation *)

(** C7.  An address splits into page number [(a >> 8) & 0xFF] and offset
    [a & 0xFF]; the line reported for it, in any state of a run, carries
    the physical address [frame_number * 256 + offset] and the byte at
    [offset] of frame [frame_number], where [frame_number] is the frame
    the page table and the buffer give for the page. *)
Theorem translation_report (disk_file hist : list Z) (a : Z) :
  get_page_number a = Z.land (Z.shiftr a 8) 0xFF ∧
  get_offset a = Z.land a 0xFF ∧
  ∃ rs s r s' frame_number row,
    main disk_file hist = Some (rs, s) ∧
    process_address disk_file a s = Some (r, s') ∧
    virtual_address r = a ∧
    arr_get (page_table s'.1) (get_page_number a) = Some frame_number ∧
    search_TLB (TLB s'.1) (get_page_number a) = Some frame_number ∧
    0 <= frame_number < NUM_FRAMES ∧
    physical_address r = frame_number * FRAME_SIZE_BYTES + get_offset a ∧
    arr_get (frames (local_memory s'.1)) frame_number = Some row ∧
    arr_get row (get_offset a) = Some (value r).
Proof.
  split; [apply get_page_number_shift_mask|]. split; [reflexivity|].
  destruct (main_ok disk_file hist) as (rs & s & Hmain & Hs & _).
  destruct (step_ok disk_file _ s a Hs)
    as (f & v & s' & Hstep & _ & [HI' _] & _ & Hlk & Hf0 & Hv & Hview & _).
  pose proof (lookup_lt_Some _ _ _ Hlk) as Hlt.
  pose proof (Inv_loaded_length _ _ _ HI') as Hlen.
  pose proof (get_offset_range a) as Ho.
  pose proof (get_page_number_range a) as Hp.
  exists rs, s, (Report a (f * 256 + get_offset a) v), s', f,
         (read_page disk_file (get_page_number a)).
  split_and!.
  - exact Hmain.
  - exact Hstep.
  - reflexivity.
  - apply arr_get_Some. split; [lia|].
    rewrite (inv_mapped HI' _ _ Hlk). f_equal. lia.
  - rewrite (search_TLB_view _ _ (inv_tlb HI')), Hview. f_equal.
    destruct (decide (get_page_number a ∈ (tlb_view (TLB s.1)).*1))
      as [Hin|Hnin].
    + rewrite (expected_path_hit _ _ _ Hin).
      rewrite decide_True by reflexivity.
      destruct Hs as [HI _].
      pose proof (Inv_tlb_in_loaded _ _ _ _ HI Hin) as Hl.
      rewrite touch_old in Hlk by exact Hl.
      apply queue_lookup_elem in Hin.
      destruct (inv_tlb_sound HI _ _ Hin) as (i & Hi & ->).
      rewrite (Inv_frame_unique _ _ _ _ _ _ HI Hi Hlk). lia.
    + pose proof (expected_path_miss (loaded_pages hist) _ _ Hnin) as Hne.
      rewrite decide_False by exact Hne.
      apply queue_push_lookup. exact Hnin.
  - lia.
  - unfold NUM_FRAMES. lia.
  - reflexivity.
  - apply arr_get_Some. split; [lia|]. apply (inv_mem HI' _ _ Hlk).
  - apply arr_get_Some. split; [lia|]. exact Hv.
Qed.

(** ** The second probe *)

(** C9.  In any state of a run, if the probe of the buffer misses, then
    [check_page_table] succeeds and the probe that follows it finds the
    page: it returns a frame number, never [-1], within [0, NUM_FRAMES),
    and the read of the byte at the offset is within the frame. *)
Theorem reprobe_after_miss (disk_file hist : list Z) (va : Z)
    (rs : list report) (g : globals) (l : locals) :
  main disk_file hist = Some (rs, (g, l)) →
  search_TLB (TLB g) (get_page_number va) = Some (-1) →
  ∃ faults g' frame_number row v,
    check_page_table (get_page_number va) (get_offset va) disk_file g =
      Some (faults, g') ∧
    search_TLB (TLB g') (get_page_number va) = Some frame_number ∧
    frame_number ≠ -1 ∧
    0 <= frame_number < NUM_FRAMES ∧
    arr_get (frames (local_memory g')) frame_number = Some row ∧
    arr_get row (get_offset va) = Some v.
Proof.
  intros Hmain Hprobe.
  destruct (main_state_inv _ _ _ _ Hmain) as [HI _]. cbn [fst] in HI.
  clear Hmain.
  pose proof (get_page_number_range va) as Hp.
  pose proof (get_offset_range va) as Ho.
  rewrite (search_TLB_view _ _ (inv_tlb HI)) in Hprobe.
  injection Hprobe as Hprobe.
  assert (get_page_number va ∉ (tlb_view (TLB g)).*1) as Hmiss.
  { intros Hin%queue_lookup_elem. rewrite Hprobe in Hin.
    destruct (inv_tlb_sound HI _ _ Hin) as (i & _ & Hi). lia. }
  destruct (check_page_table_spec disk_file _ g _ (get_offset va) HI Hp Hmiss)
    as (f & g' & Hcheck & HI' & Hlk & Hf0 & Hview & _).
  pose proof (lookup_lt_Some _ _ _ Hlk) as Hlt.
  pose proof (Inv_loaded_length _ _ _ HI') as Hlen.
  destruct (lookup_lt_is_Some_2 (read_page disk_file (get_page_number va))
              (Z.to_nat (get_offset va))) as [v Hv];
    [rewrite read_page_length; lia|].
  exists (Z.of_nat (length (touch (loaded_pages hist) (get_page_number va)))),
         g', f, (read_page disk_file (get_page_number va)), v.
  split_and!.
  - exact Hcheck.
  - rewrite (search_TLB_view _ _ (inv_tlb HI')), Hview.
    f_equal. apply queue_push_lookup. exact Hmiss.
  - lia.
  - lia.
  - unfold NUM_FRAMES. lia.
  - apply arr_get_Some. split; [lia|]. apply (inv_mem HI' _ _ Hlk).
  - apply arr_get_Some. split; [lia|]. exact Hv.
Qed.

Lemma reprobe_after_miss_witness :
  ∃ faults g' frame_number row v,
    check_page_table (get_page_number 300) (get_offset 300) [] initial_globals =
      Some (faults, g') ∧
    search_TLB (TLB g') (get_page_number 300) = Some frame_number ∧
    frame_number ≠ -1 ∧
    0 <= frame_number < NUM_FRAMES ∧
    arr_get (frames (local_memory g')) frame_number = Some row ∧
    arr_get row (get_offset 300) = Some v.
Proof.
  apply (reprobe_after_miss [] [] 300 [] initial_globals (Locals 0 0 0)).
  - vm_compute. reflexivity.
  - vm_compute. reflexivity.
Defined.

(** ** The shape of the buffer *)

(** C10.  The indices of the buffer keep their shape: [initialize_TLB]
    establishes [0 <= num_filled <= 16], [0 <= head_position < 16] and
    [head_position = 0] while [num_filled < 16]; [update_TLB] preserves
    it, never decreases [num_filled] and leaves a full buffer full; and so
    it is between any two states of a run. *)
Theorem tlb_shape_invariant :
  (∀ t, tlb_inv (initialize_TLB t)) ∧
  (∀ t p f t',
     tlb_inv t → update_TLB p f t = Some t' →
     tlb_inv t' ∧
     num_filled t <= num_filled t' ∧
     (num_filled t = NUM_TLB_ENTRIES → num_filled t' = NUM_TLB_ENTRIES)) ∧
  (∀ disk_file hist more,
     ∃ rs s rs' s',
       main disk_file hist = Some (rs, s) ∧
       main disk_file (hist ++ more) = Some (rs ++ rs', s') ∧
       tlb_inv (TLB s.1) ∧ tlb_inv (TLB s'.1) ∧
       num_filled (TLB s.1) <= num_filled (TLB s'.1) ∧
       (num_filled (TLB s.1) = NUM_TLB_ENTRIES →
        num_filled (TLB s'.1) = NUM_TLB_ENTRIES)).
Proof.
  split_and!.
  - intros t. unfold tlb_inv, initialize_TLB, NUM_TLB_ENTRIES. cbn. lia.
  - intros t p f t' (Hn & Hh & H0). unfold update_TLB, tlb_inv.
    unfold NUM_TLB_ENTRIES in *. case_decide as Hfull.
    + destruct (arr_set (page_numbers t) _ _); [|discriminate].
      destruct (arr_set (frame_numbers t) _ _); [|discriminate].
      run_bind. intros [= <-].
      cbn [num_filled head_position].
      rewrite Z.rem_mod_nonneg by lia.
      pose proof (Z.mod_pos_bound (head_position t + 1) 16 ltac:(lia)). lia.
    + destruct (arr_set (page_numbers t) _ _); [|discriminate].
      destruct (arr_set (frame_numbers t) _ _); [|discriminate].
      run_bind. intros [= <-].
      cbn [num_filled head_position]. lia.
  - intros disk_file hist more.
    destruct (main_ok disk_file hist) as (rs & s & Hmain & Hs & _).
    destruct (process_stream_ok disk_file more _ s Hs)
      as (rs' & s' & Hrun & [HI' _] & _).
    pose proof (process_stream_num_filled _ _ _ _ _ _ Hs Hrun) as Hmono.
    destruct Hs as [HI _].
    pose proof (inv_tlb HI) as (_ & _ & Hinv).
    pose proof (inv_tlb HI') as (_ & _ & Hinv').
    exists rs, s, rs', s'. split_and!.
    + exact Hmain.
    + rewrite (main_app _ _ _ _ _ Hmain), Hrun. reflexivity.
    + exact Hinv.
    + exact Hinv'.
    + exact Hmono.
    + destruct Hinv' as ([_ Hle] & _). lia.
Qed.

Lemma tlb_shape_invariant_witness :
  let t := Tlb (replicate 16 0) (replicate 16 0) 16 15 in
  let t' := Tlb (<[15%nat := 7]> (replicate 16 0))
                (<[15%nat := 3]> (replicate 16 0)) 16 0 in
  tlb_inv t ∧ update_TLB 7 3 t = Some t' ∧
  tlb_inv t' ∧
  num_filled t <= num_filled t' ∧
  (num_filled t = NUM_TLB_ENTRIES → num_filled t' = NUM_TLB_ENTRIES).
Proof.
  intros t t'.
  assert (tlb_inv t) as Ht
    by (unfold tlb_inv, t, NUM_TLB_ENTRIES; simpl; lia).
  assert (update_TLB 7 3 t = Some t') as Hup by reflexivity.
  split; [exact Ht|]. split; [exact Hup|].
  exact (proj1 (proj2 tlb_shape_invariant) t 7 3 t' Ht Hup).
Defined.

(** ** Round trip through the disk *)

Lemma read_page_full disk_file P bytes :
  length bytes = 256%nat →
  take 256 (drop (Z.to_nat (P * 256)) disk_file) = bytes →
  read_page disk_file P = bytes.
Proof.
  intros Hlen Htake. unfold read_page, PAGE_SIZE_BYTES.
  change (Z.to_nat 256) with 256%nat. rewrite Htake, Hlen.
  rewrite Nat.sub_diag. apply app_nil_r.
Qed.

Lemma queue_push_pages_last (q : list (Z * Z)) p f :
  p ∈ (queue_push q (p, f)).*1.
Proof.
  rewrite queue_push_fmap. apply queue_push_last.
Qed.

(** C8.  If page [P] of the disk holds the bytes [bytes], then in any
    state of a run the address [P * 256 + k] is reported with the byte
    [bytes[k]] (through a page fault when [P] was not referenced before),
    and asking for the same address again hits the buffer and yields the
    same report. *)
Theorem backing_store_round_trip (disk_file hist : list Z) (P k : Z)
    (bytes : list Z) :
  0 <= P < 256 → 0 <= k < 256 →
  length bytes = 256%nat →
  take 256 (drop (Z.to_nat (P * 256)) disk_file) = bytes →
  ∃ rs s r s1 s2 b,
    main disk_file hist = Some (rs, s) ∧
    bytes !! Z.to_nat k = Some b ∧
    (P ∉ get_page_number <$> hist →
     resolve_path s.1 (P * 256 + k) = Some Page_fault) ∧
    process_address disk_file (P * 256 + k) s = Some (r, s1) ∧
    virtual_address r = P * 256 + k ∧
    value r = b ∧
    resolve_path s1.1 (P * 256 + k) = Some TLB_hit ∧
    process_address disk_file (P * 256 + k) s1 = Some (r, s2).
Proof.
  intros HP Hk Hlen Htake.
  destruct (address_of_page_offset P k HP Hk) as [Hpage Hoff].
  pose proof (read_page_full _ _ _ Hlen Htake) as Hread.
  destruct (main_ok disk_file hist) as (rs & s & Hmain & Hs & _).
  destruct (step_ok disk_file _ s (P * 256 + k) Hs)
    as (f & v & s1 & Hstep & Hpath & Hs1 & _ & Hlk & Hf0 & Hv & Hview & _).
  destruct (step_ok disk_file _ s1 (P * 256 + k) Hs1)
    as (f2 & v2 & s2 & Hstep2 & Hpath2 & _ & _ & Hlk2 & Hf2 & Hv2 & _).
  rewrite Hpage, Hoff, ?Hread in *.
  assert (P ∈ (tlb_view (TLB s1.1)).*1) as Hheld.
  { rewrite Hview. case_decide as Hhit; [|apply queue_push_pages_last].
    destruct (decide (P ∈ (tlb_view (TLB s.1)).*1)) as [Hin|Hnin];
      [exact Hin|].
    by destruct (expected_path_miss (loaded_pages hist) _ _ Hnin). }
  rewrite (expected_path_hit _ _ _ Hheld) in Hpath2.
  rewrite (touch_old (touch _ _) P) in Hlk2 by apply touch_elem.
  destruct Hs1 as [HI1 _].
  pose proof (Inv_frame_unique _ _ _ _ _ _ HI1 Hlk Hlk2) as Hff.
  assert (f2 = f) as -> by lia.
  assert (v2 = v) as -> by congruence.
  exists rs, s, (Report (P * 256 + k) (f * 256 + k) v), s1, s2, v.
  split_and!.
  - exact Hmain.
  - exact Hv.
  - intros Hfresh. rewrite Hpath. f_equal.
    rewrite <- loaded_pages_elem in Hfresh.
    apply expected_path_fault; [exact Hfresh|].
    intros Hin. apply Hfresh. destruct Hs as [HI _].
    by eapply Inv_tlb_in_loaded.
  - exact Hstep.
  - reflexivity.
  - reflexivity.
  - exact Hpath2.
  - exact Hstep2.
Qed.

Lemma backing_store_round_trip_witness :
  ∃ rs s r s1 s2 b,
    main (replicate 256 7) [] = Some (rs, s) ∧
    replicate 256 7 !! Z.to_nat 3 = Some b ∧
    (0 ∉ get_page_number <$> [] →
     resolve_path s.1 (0 * 256 + 3) = Some Page_fault) ∧
    process_address (replicate 256 7) (0 * 256 + 3) s = Some (r, s1) ∧
    virtual_address r = 0 * 256 + 3 ∧
    value r = b ∧
    resolve_path s1.1 (0 * 256 + 3) = Some TLB_hit ∧
    process_address (replicate 256 7) (0 * 256 + 3) s1 = Some (r, s2).
Proof.
  apply (backing_store_round_trip (replicate 256 7) [] 0 3 (replicate 256 7)).
  - lia.
  - lia.
  - reflexivity.
  - reflexivity.
Defined.

(** ** The statistics *)

(** On a stream of at most [INT_MAX] addresses no counter overflows. *)
Lemma run_in_int_range_bounded disk_file stream :
  Z.of_nat (length stream) <= INT_MAX → run_in_int_range disk_file stream.
Proof.
  intros Hbound. apply Forall_forall. intros l Hl.
  destruct (counters_bounded disk_file stream l Hl) as (H1 & H2 & H3).
  unfold locals_in_int, int_range, INT_MAX in *. lia.
Qed.





(** ** Frame allocation *)

(** C6.  Along any run the frame numbers returned by
    [load_page_disk_to_memory] are 0, 1, 2, ... in this order, one for each
    page of the stream at its first reference: none is handed out twice,
    and none exceeds [NUM_FRAMES - 1], since a page number is below 256
    and faults once. *)
Theorem frames_allocated_in_order (disk_file stream : list Z) :
  ∃ rs s,
    main disk_file stream = Some (rs, s) ∧
    let allocated := stream_allocations disk_file stream initial_state in
    allocated = seqZ 0 (Z.of_nat (length allocated)) ∧
    NoDup allocated ∧
    Forall (λ f, 0 <= f <= NUM_FRAMES - 1) allocated ∧
    length allocated = length (loaded_pages stream) ∧
    (length allocated <= 256)%nat ∧
    highest_open_frame (local_memory s.1) = Z.of_nat (length allocated) ∧
    num_Pg_faults s.2 = Z.of_nat (length allocated).
Proof.
  destruct (main_ok disk_file stream) as (rs & s & Hmain & [HI Hf] & _).
  exists rs, s. split; [exact Hmain|]. clear Hmain. cbv zeta.
  rewrite (stream_allocations_spec disk_file stream []
             initial_state (initial_state_inv disk_file)).
  fold (loaded_pages stream). cbn [length]. rewrite Z.sub_0_r.
  pose proof (Inv_loaded_length _ _ _ HI) as Hlen.
  rewrite length_seqZ, Nat2Z.id.
  split_and!.
  - reflexivity.
  - apply NoDup_seqZ.
  - apply Forall_forall. intros f Hin%elem_of_seqZ. unfold NUM_FRAMES. lia.
  - reflexivity.
  - exact Hlen.
  - apply (inv_hof HI).
  - exact Hf.
Qed.

(** ** FIFO replacement *)

(** C3.  The buffer has 16 slots and never holds more than 16 entries.
    With room left, [update_TLB] writes the next free slot and increments
    [num_filled]; when full, it overwrites the slot at [head_position],
    which is the first entry in scan order, and advances the head by one
    modulo 16.  The entries held are always the (at most) 16 inserted
    last, in the order of insertion, so the one overwritten is the one
    inserted earliest.  After 17 addresses on 17 different pages the
    buffer holds pages 2 to 17, and an address on the first page misses
    the buffer, finds its page-table entry and counts neither a fault nor
    a hit. *)
Theorem tlb_fifo_replacement :
  (∀ disk_file hist,
     ∃ rs s,
       main disk_file hist = Some (rs, s) ∧
       length (page_numbers (TLB s.1)) = 16%nat ∧
       length (frame_numbers (TLB s.1)) = 16%nat ∧
       0 <= num_filled (TLB s.1) <= NUM_TLB_ENTRIES ∧
       length (tlb_view (TLB s.1)) = Z.to_nat (num_filled (TLB s.1))) ∧
  (∀ t p f,
     tlb_wf t → num_filled t < NUM_TLB_ENTRIES →
     update_TLB p f t =
     Some (Tlb (<[Z.to_nat (num_filled t) := p]> (page_numbers t))
               (<[Z.to_nat (num_filled t) := f]> (frame_numbers t))
               (num_filled t + 1) (head_position t))) ∧
  (∀ t p f,
     tlb_wf t → num_filled t = NUM_TLB_ENTRIES →
     update_TLB p f t =
     Some (Tlb (<[Z.to_nat (head_position t) := p]> (page_numbers t))
               (<[Z.to_nat (head_position t) := f]> (frame_numbers t))
               (num_filled t)
               ((head_position t + 1) mod NUM_TLB_ENTRIES)) ∧
     ∃ pn fn,
       arr_get (page_numbers t) (head_position t) = Some pn ∧
       arr_get (frame_numbers t) (head_position t) = Some fn ∧
       head (tlb_view t) = Some (pn, fn)) ∧
  (∀ t p f t',
     tlb_wf t → update_TLB p f t = Some t' →
     tlb_view t' = queue_push (tlb_view t) (p, f)) ∧
  (∀ t es,
     tlb_wf t →
     ∃ t', insert_all es (initialize_TLB t) = Some t' ∧
           tlb_view t' = drop (length es - 16) es) ∧
  (∀ disk_file stream,
     NoDup (get_page_number <$> stream) →
     ∃ rs s,
       main disk_file stream = Some (rs, s) ∧
       stream_paths disk_file stream initial_state =
         replicate (length stream) Page_fault ∧
       (tlb_view (TLB s.1)).*1 =
         drop (length stream - 16) (get_page_number <$> stream)) ∧
  (∀ disk_file stream va,
     length stream = 17%nat →
     NoDup (get_page_number <$> stream) →
     head (get_page_number <$> stream) = Some (get_page_number va) →
     ∃ rs s r s',
       main disk_file stream = Some (rs, s) ∧
       (tlb_view (TLB s.1)).*1 = drop 1 (get_page_number <$> stream) ∧
       search_TLB (TLB s.1) (get_page_number va) = Some (-1) ∧
       arr_get (page_table s.1) (get_page_number va) = Some 0 ∧
       resolve_path s.1 va = Some Table_hit ∧
       process_address disk_file va s = Some (r, s') ∧
       num_Pg_faults s'.2 = num_Pg_faults s.2 ∧
       num_TLB_hits s'.2 = num_TLB_hits s.2).
Proof.
  assert (∀ disk_file stream,
     NoDup (get_page_number <$> stream) →
     ∃ rs s,
       main disk_file stream = Some (rs, s) ∧
       state_inv disk_file (get_page_number <$> stream) s ∧
       stream_paths disk_file stream initial_state =
         replicate (length stream) Page_fault ∧
       (tlb_view (TLB s.1)).*1 =
         drop (length stream - 16) (get_page_number <$> stream)) as Hfresh.
  { intros disk_file stream Hnd.
    destruct (fresh_run disk_file stream [] initial_state
                (initial_state_inv disk_file) Hnd)
      as (rs & s & Hrun & Hs & Hview & Hpaths).
    { intros p _ ?%elem_of_nil. done. }
    exists rs, s. rewrite main_eq. split_and!.
    - exact Hrun.
    - exact Hs.
    - exact Hpaths.
    - rewrite Hview. cbn [initial_state fst]. rewrite tlb_view_initial.
      cbn [fmap list_fmap]. rewrite foldl_queue_push, length_fmap.
      reflexivity. }
  split_and!.
  - intros disk_file hist.
    destruct (main_ok disk_file hist) as (rs & s & Hmain & [HI _] & _).
    exists rs, s. pose proof (inv_tlb HI) as (Hlp & Hlf & Hn & _).
    split_and!.
    + exact Hmain.
    + exact Hlp.
    + exact Hlf.
    + lia.
    + lia.
    + apply tlb_view_length.
  - intros t p f. apply update_TLB_spare.
  - intros t p f Hwf Hfull. split.
    + by apply update_TLB_full.
    + by apply tlb_view_head.
  - intros t p f t'. apply update_TLB_view.
  - intros t es Hwf.
    destruct (initialize_TLB_wf t Hwf) as [Hwf0 Hview0].
    destruct (insert_all_view es _ Hwf0) as (t' & Hall & _ & Hview).
    exists t'. split; [exact Hall|].
    rewrite Hview, Hview0. apply foldl_queue_push.
  - intros disk_file stream Hnd.
    destruct (Hfresh disk_file stream Hnd) as (rs & s & Hmain & _ & Hp & Hv).
    exists rs, s. split_and!; [exact Hmain|exact Hp|exact Hv].
  - intros disk_file stream va Hlen Hnd Hhead.
    destruct (Hfresh disk_file stream Hnd)
      as (rs & s & Hmain & Hs & _ & Hview).
    rewrite Hlen in Hview. change (17 - 16)%nat with 1%nat in Hview.
    apply head_Some in Hhead as [rest Hpages].
    rewrite Hpages in *. cbn [drop] in Hview.
    apply NoDup_cons in Hnd as [Hfirst _].
    assert (get_page_number va ∉ (tlb_view (TLB s.1)).*1) as Hmiss
      by (rewrite Hview; exact Hfirst).
    assert (get_page_number va ∈ get_page_number va :: rest) as Hin by left.
    destruct (step_ok disk_file _ s va Hs)
      as (f & v & s' & Hstep & Hpath & _ & Hl & _).
    rewrite (expected_path_table _ _ _ Hmiss Hin) in Hpath, Hl.
    rewrite touch_old in Hl by exact Hin.
    destruct Hs as [HI Hf].
    exists rs, s, (Report va (f * 256 + get_offset va) v), s'.
    split_and!.
    + exact Hmain.
    + cbn [drop]. exact Hview.
    + rewrite (search_TLB_view _ _ (inv_tlb HI)).
      rewrite queue_lookup_miss by exact Hmiss. reflexivity.
    + apply arr_get_Some. pose proof (get_page_number_range va).
      split; [lia|]. apply (inv_mapped HI 0%nat). reflexivity.
    + exact Hpath.
    + exact Hstep.
    + rewrite Hl, Hf. reflexivity.
    + rewrite Hl. reflexivity.
Qed.

Lemma tlb_fifo_replacement_witness :
  (let t := Tlb (replicate 16 0) (replicate 16 0) 16 15 in
   update_TLB 7 3 t =
     Some (Tlb (<[15%nat := 7]> (replicate 16 0))
               (<[15%nat := 3]> (replicate 16 0)) 16 ((15 + 1) mod 16))) ∧
  ∃ rs s r s',
    main disk_0_5 stream_17 = Some (rs, s) ∧
    (tlb_view (TLB s.1)).*1 = drop 1 (get_page_number <$> stream_17) ∧
    search_TLB (TLB s.1) (get_page_number 5) = Some (-1) ∧
    arr_get (page_table s.1) (get_page_number 5) = Some 0 ∧
    resolve_path s.1 5 = Some Table_hit ∧
    process_address disk_0_5 5 s = Some (r, s') ∧
    num_Pg_faults s'.2 = num_Pg_faults s.2 ∧
    num_TLB_hits s'.2 = num_TLB_hits s.2.
Proof.
  destruct tlb_fifo_replacement as (_ & _ & Hfull & _ & _ & _ & Hscenario).
  split.
  - intros t.
    apply (Hfull t 7 3).
    + unfold tlb_wf, tlb_inv, t, NUM_TLB_ENTRIES. simpl. lia.
    + reflexivity.
  - apply (Hscenario disk_0_5 stream_17 5).
    + reflexivity.
    + apply (bool_decide_unpack _). vm_compute. exact I.
    + reflexivity.
Defined.

(** * Further properties of the code *)

(** ** The initialisers *)

Lemma initialize_page_table_loop_short n i pt :
  0 <= i → (Z.to_nat i <= length pt < Z.to_nat i + n)%nat →
  initialize_page_table_loop n i pt = None.
Proof.
  revert i pt. induction n as [|n IH]; intros i pt Hi Hlen; [lia|].
  cbn [initialize_page_table_loop]. unfold arr_set.
  case_decide as Hin; [|reflexivity]. run_bind.
  apply IH; [lia|]. rewrite length_insert. lia.
Qed.

(** [initialize_page_table] overwrites every entry of a 256-entry table
    with [-1], whatever the table held; on a shorter table the loop runs
    past its end. *)
Theorem initialize_page_table_resets (pt : list Z) :
  (length pt = 256%nat →
   initialize_page_table pt = Some (replicate 256 (-1))) ∧
  ((length pt < 256)%nat → initialize_page_table pt = None).
Proof.
  unfold initialize_page_table, PAGE_SIZE_BYTES. split; intros Hlen.
  - rewrite initialize_page_table_loop_spec by lia. f_equal.
    change (Z.to_nat 0) with 0%nat. change (Z.to_nat 256) with 256%nat.
    cbn [take Nat.add app]. rewrite drop_ge by lia. apply app_nil_r.
  - apply initialize_page_table_loop_short; lia.
Qed.

Lemma initialize_page_table_resets_witness :
  initialize_page_table (replicate 256 7) = Some (replicate 256 (-1)) ∧
  initialize_page_table (replicate 255 7) = None.
Proof.
  split.
  - apply (proj1 (initialize_page_table_resets (replicate 256 7))).
    reflexivity.
  - apply (proj2 (initialize_page_table_resets (replicate 255 7))).
    rewrite length_replicate. lia.
Defined.

(** ** Addresses *)

Lemma get_page_number_div a : get_page_number a = (a / 256) mod 256.
Proof.
  rewrite get_page_number_shift_mask. change 255 with (Z.ones 8).
  rewrite Z.land_ones, Z.shiftr_div_pow2 by lia. reflexivity.
Qed.

Lemma get_offset_mod a : get_offset a = a mod 256.
Proof.
  unfold get_offset, OFFSET_MASK. change 255 with (Z.ones 8).
  rewrite Z.land_ones by lia. reflexivity.
Qed.

Lemma address_split a :
  a mod 65536 = get_page_number a * 256 + get_offset a.
Proof.
  rewrite get_page_number_div, get_offset_mod.
  Z.div_mod_to_equations. lia.
Qed.

(** Only the low 16 bits of an address count: they are the page number
    times 256 plus the offset, both below 256, and adding a multiple of
    2^16 changes neither. *)
Theorem address_low_bits (a k : Z) :
  a mod 65536 = get_page_number a * 256 + get_offset a ∧
  0 <= get_page_number a < 256 ∧
  0 <= get_offset a < 256 ∧
  get_page_number (a + 65536 * k) = get_page_number a ∧
  get_offset (a + 65536 * k) = get_offset a.
Proof.
  rewrite !get_page_number_div, !get_offset_mod.
  split_and!; Z.div_mod_to_equations; lia.
Qed.

(** ** The disk *)

Lemma read_page_lookup (disk_file : list Z) (page_number : Z) (i : nat) :
  0 <= page_number → (i < 256)%nat →
  read_page disk_file page_number !! i =
    Some (nth (Z.to_nat page_number * 256 + i) disk_file 0).
Proof.
  intros Hp Hi.
  unfold read_page, PAGE_SIZE_BYTES. change (Z.to_nat 256) with 256%nat.
  replace (Z.to_nat (page_number * 256))
    with (Z.to_nat page_number * 256)%nat by lia.
  set (start := (Z.to_nat page_number * 256)%nat).
  rewrite nth_lookup.
  destruct (decide (start + i < length disk_file)%nat) as [Hin|Hout].
  - rewrite lookup_app_l by (rewrite length_take, length_drop; lia).
    rewrite lookup_take_lt, lookup_drop by lia.
    destruct (lookup_lt_is_Some_2 disk_file (start + i)) as [b Hb]; [lia|].
    rewrite Hb. reflexivity.
  - rewrite lookup_app_r by (rewrite length_take, length_drop; lia).
    rewrite (lookup_ge_None_2 disk_file) by lia. cbn [default].
    apply lookup_replicate_2. rewrite length_take, length_drop. lia.
Qed.

(** The page read for a fault has 256 bytes: byte [i] is the byte of the
    file at position [page_number * 256 + i], and 0 where the file ends
    before it. *)
Theorem read_page_bytes (disk_file : list Z) (page_number : Z) (i : nat) :
  0 <= page_number → (i < 256)%nat →
  length (read_page disk_file page_number) = 256%nat ∧
  read_page disk_file page_number !! i =
    Some (nth (Z.to_nat page_number * 256 + i) disk_file 0) ∧
  ((length disk_file <= Z.to_nat page_number * 256)%nat →
   read_page disk_file page_number = replicate 256 0).
Proof.
  intros Hp Hi. split; [apply read_page_length|].
  split; [by apply read_page_lookup|].
  intros Hshort. apply list_eq. intros j.
  destruct (decide (j < 256)%nat) as [Hj|Hj].
  - rewrite read_page_lookup, lookup_replicate_2 by done.
    rewrite nth_overflow by lia. reflexivity.
  - rewrite !lookup_ge_None_2;
      rewrite ?read_page_length, ?length_replicate; (reflexivity || lia).
Qed.

Lemma read_page_bytes_witness :
  length (read_page [1; 2; 3] 1) = 256%nat ∧
  read_page [1; 2; 3] 1 !! 5%nat =
    Some (nth (Z.to_nat 1 * 256 + 5) [1; 2; 3] 0) ∧
  read_page [1; 2; 3] 1 = replicate 256 0.
Proof.
  destruct (read_page_bytes [1; 2; 3] 1 5) as (H1 & H2 & H3); [lia|lia|].
  split; [exact H1|]. split; [exact H2|]. apply H3. simpl. lia.
Defined.

(** ** Loading a page *)

(** With a frame still open, [load_page_disk_to_memory] returns the index
    of the open frame, fills exactly that frame with the page read from
    the disk, leaves every other frame as it was and moves on to the next
    frame; its [offset] argument plays no part.  With no frame left
    ([highest_open_frame] outside the array) it writes outside the
    memory: the code has no check for this. *)
Theorem load_page_frame_effect (disk_file : list Z) (page_number offset : Z)
    (m : memory) :
  length (frames m) = 256%nat →
  (∀ i row, frames m !! i = Some row → length row = 256%nat) →
  (0 <= highest_open_frame m < NUM_FRAMES →
   ∃ m',
     load_page_disk_to_memory page_number offset disk_file m =
       Some (highest_open_frame m, m') ∧
     highest_open_frame m' = highest_open_frame m + 1 ∧
     length (frames m') = 256%nat ∧
     frames m' !! Z.to_nat (highest_open_frame m) =
       Some (read_page disk_file page_number) ∧
     ∀ i, i ≠ Z.to_nat (highest_open_frame m) →
          frames m' !! i = frames m !! i) ∧
  (¬ 0 <= highest_open_frame m < NUM_FRAMES →
   load_page_disk_to_memory page_number offset disk_file m = None).
Proof.
  intros Hlen Hrows. unfold NUM_FRAMES. split; intros Hh.
  - rewrite load_page_disk_to_memory_spec by (try exact Hrows; lia).
    eexists. split; [reflexivity|]. cbn [frames highest_open_frame].
    split_and!.
    + reflexivity.
    + rewrite length_insert. exact Hlen.
    + apply list_lookup_insert_eq. lia.
    + intros i Hi. apply list_lookup_insert_ne. lia.
  - unfold load_page_disk_to_memory, PAGE_SIZE_BYTES.
    change (Z.to_nat 256) with (S 255). cbn [copy_page_loop].
    destruct (arr_get_in_range (read_page disk_file page_number) 0)
      as [b ->]; [rewrite read_page_length; lia|].
    run_bind.
    assert (arr_get (frames m) (highest_open_frame m) = None) as ->;
      [|reflexivity].
    unfold arr_get. case_decide; [|reflexivity].
    apply lookup_ge_None_2. lia.
Qed.

Lemma load_page_frame_effect_witness :
  (∃ m',
     load_page_disk_to_memory 3 0 []
       (Memory (replicate 256 (replicate 256 7)) 2) = Some (2, m') ∧
     highest_open_frame m' = 2 + 1 ∧
     length (frames m') = 256%nat ∧
     frames m' !! Z.to_nat 2 = Some (read_page [] 3) ∧
     ∀ i, i ≠ Z.to_nat 2 →
          frames m' !! i = replicate 256 (replicate 256 7) !! i) ∧
  load_page_disk_to_memory 3 0 []
    (Memory (replicate 256 (replicate 256 7)) 256) = None.
Proof.
  assert (∀ h i row,
            frames (Memory (replicate 256 (replicate 256 7)) h) !! i
              = Some row → length row = 256%nat) as Hrows.
  { intros h i row [-> _]%lookup_replicate. apply length_replicate. }
  split.
  - apply (proj1 (load_page_frame_effect [] 3 0
                    (Memory (replicate 256 (replicate 256 7)) 2)
                    (length_replicate _ _) (Hrows 2))).
    unfold NUM_FRAMES. simpl. lia.
  - apply (proj2 (load_page_frame_effect [] 3 0
                    (Memory (replicate 256 (replicate 256 7)) 256)
                    (length_replicate _ _) (Hrows 256))).
    unfold NUM_FRAMES. simpl. lia.
Defined.

(** ** Insertion into the buffer and lookup *)

Lemma queue_lookup_app_l (q q' : list (Z * Z)) p :
  p ∈ q.*1 → queue_lookup (q ++ q') p = queue_lookup q p.
Proof.
  induction q as [|[pn fn] q IH]; cbn; [by intros ?%elem_of_nil|].
  intros Hp. case_decide; [reflexivity|].
  apply IH. apply elem_of_cons in Hp as [?|?]; [congruence|done].
Qed.

Lemma queue_lookup_app_r (q q' : list (Z * Z)) p :
  p ∉ q.*1 → queue_lookup (q ++ q') p = queue_lookup q' p.
Proof.
  induction q as [|[pn fn] q IH]; cbn; [done|].
  intros Hp. apply not_elem_of_cons in Hp as [Hne Hp].
  rewrite decide_False by congruence. auto.
Qed.

Lemma queue_lookup_snoc_other (q : list (Z * Z)) p f x :
  x ≠ p → queue_lookup (q ++ [(p, f)]) x = queue_lookup q x.
Proof.
  intros Hne. destruct (decide (x ∈ q.*1)) as [Hin|Hnin].
  - by apply queue_lookup_app_l.
  - rewrite queue_lookup_app_r by done.
    rewrite (queue_lookup_miss q) by done.
    cbn. by rewrite decide_False by congruence.
Qed.

(** The pages in scan order are those of the slots in use. *)
Lemma tlb_view_pages_elem t p :
  tlb_wf t →
  p ∈ (tlb_view t).*1 ↔ p ∈ take (Z.to_nat (num_filled t)) (page_numbers t).
Proof.
  intros Hwf. pose proof Hwf as (_ & _ & Hinv).
  pose proof Hinv as (Hn & _).
  rewrite elem_of_take. split.
  - intros [a Ha]%list_elem_of_lookup_1.
    pose proof (lookup_lt_Some _ _ _ Ha) as Hlt.
    rewrite length_fmap, tlb_view_length in Hlt.
    pose proof (tlb_slot_held t (Z.of_nat a) Hinv ltac:(lia)) as Hs.
    exists (Z.to_nat (tlb_slot t (Z.of_nat a))). split; [|lia].
    rewrite <- tlb_view_pages_lookup by (done || lia).
    by rewrite Nat2Z.id.
  - intros (i & Hi & Hlt).
    destruct (tlb_slot_surj t (Z.of_nat i) Hinv) as (a & Ha & Hsa); [lia|].
    apply (list_elem_of_lookup_2 _ (Z.to_nat a)).
    rewrite tlb_view_pages_lookup, Hsa, Nat2Z.id by done. exact Hi.
Qed.

Lemma tlb_view_NoDup t :
  tlb_wf t →
  NoDup (take (Z.to_nat (num_filled t)) (page_numbers t)) →
  NoDup (tlb_view t).*1.
Proof.
  intros Hwf Hnd. pose proof Hwf as (_ & _ & Hinv).
  apply NoDup_alt. intros a b x Ha Hb.
  pose proof (lookup_lt_Some _ _ _ Ha) as Hla.
  pose proof (lookup_lt_Some _ _ _ Hb) as Hlb.
  rewrite length_fmap, tlb_view_length in Hla, Hlb.
  pose proof (tlb_slot_held t (Z.of_nat a) Hinv ltac:(lia)) as Hsa.
  pose proof (tlb_slot_held t (Z.of_nat b) Hinv ltac:(lia)) as Hsb.
  rewrite <- (Nat2Z.id a), tlb_view_pages_lookup in Ha by (done || lia).
  rewrite <- (Nat2Z.id b), tlb_view_pages_lookup in Hb by (done || lia).
  assert (Z.to_nat (tlb_slot t (Z.of_nat a)) =
          Z.to_nat (tlb_slot t (Z.of_nat b))) as Heq.
  { eapply (NoDup_lookup _ _ _ x Hnd); apply lookup_take_Some;
      (split; [done|lia]). }
  assert (Z.of_nat a = Z.of_nat b)
    by (apply (tlb_slot_inj t); [exact Hinv|lia|lia|lia]).
  lia.
Qed.

(** Insert, then look up: after [update_TLB] for a page not held in the
    slots in use, [search_TLB] finds the page with the frame inserted;
    and with room left, the answer for every other page is what it was. *)
Theorem update_then_search (t : tlb) (p f : Z) :
  tlb_wf t →
  p ∉ take (Z.to_nat (num_filled t)) (page_numbers t) →
  ∃ t',
    update_TLB p f t = Some t' ∧
    search_TLB t' p = Some f ∧
    (num_filled t < NUM_TLB_ENTRIES →
     ∀ q, q ≠ p → search_TLB t' q = search_TLB t q).
Proof.
  intros Hwf Hp. rewrite <- tlb_view_pages_elem in Hp by done.
  destruct (update_TLB_wf p f t Hwf) as (t' & Hup & Hwf').
  pose proof (update_TLB_view _ _ _ _ Hwf Hup) as Hview.
  exists t'. split; [exact Hup|].
  split.
  - rewrite (search_TLB_view t') by done. rewrite Hview.
    f_equal. by apply queue_push_lookup.
  - intros Hroom q Hq.
    rewrite (search_TLB_view t), (search_TLB_view t') by done.
    rewrite Hview. f_equal.
    unfold queue_push. rewrite decide_False.
    + by apply queue_lookup_snoc_other.
    + rewrite tlb_view_length. destruct Hwf as (_ & _ & Hn & _). lia.
Qed.

Lemma update_then_search_witness :
  ∃ t',
    update_TLB 7 3 (Tlb (replicate 16 0) (replicate 16 0) 2 0) = Some t' ∧
    search_TLB t' 7 = Some 3 ∧
    (2 < NUM_TLB_ENTRIES →
     ∀ q, q ≠ 7 →
          search_TLB t' q =
          search_TLB (Tlb (replicate 16 0) (replicate 16 0) 2 0) q).
Proof.
  apply (update_then_search (Tlb (replicate 16 0) (replicate 16 0) 2 0) 7 3).
  - unfold tlb_wf, tlb_inv, NUM_TLB_ENTRIES. simpl. lia.
  - simpl. intros H. apply elem_of_cons in H as [H|H]; [lia|].
    apply elem_of_cons in H as [H|H]; [lia|]. by apply elem_of_nil in H.
Defined.

(** On a full buffer without duplicates, inserting a new page removes
    exactly the page in the slot at [head_position]: that page is no
    longer found, and every page other than it and the new one is found
    as before. *)
Theorem update_full_evicts_head (t : tlb) (p f old : Z) :
  tlb_wf t →
  num_filled t = NUM_TLB_ENTRIES →
  NoDup (take (Z.to_nat (num_filled t)) (page_numbers t)) →
  arr_get (page_numbers t) (head_position t) = Some old →
  old ≠ p →
  ∃ t',
    update_TLB p f t = Some t' ∧
    search_TLB t' old = Some (-1) ∧
    ∀ q, q ≠ p → q ≠ old → search_TLB t' q = search_TLB t q.
Proof.
  intros Hwf Hfull Hnd Hold Hne.
  apply tlb_view_NoDup in Hnd; [|done].
  destruct (tlb_view_head t Hwf Hfull) as (pn & fn & Hpn & _ & Hhead).
  rewrite Hold in Hpn. injection Hpn as <-.
  apply head_Some in Hhead as [rest Hview0].
  destruct (update_TLB_wf p f t Hwf) as (t' & Hup & Hwf').
  pose proof (update_TLB_view _ _ _ _ Hwf Hup) as Hview.
  unfold queue_push in Hview. rewrite decide_True in Hview.
  2:{ rewrite tlb_view_length, Hfull. reflexivity. }
  rewrite Hview0 in Hview, Hnd. cbn [drop fmap list_fmap fst] in Hview, Hnd.
  apply NoDup_cons in Hnd as [Hfresh _].
  exists t'. split; [exact Hup|]. split.
  - rewrite (search_TLB_view t') by done. rewrite Hview. f_equal.
    rewrite queue_lookup_snoc_other by done.
    by apply queue_lookup_miss.
  - intros q Hqp Hqo.
    rewrite (search_TLB_view t), (search_TLB_view t') by done.
    rewrite Hview, Hview0. f_equal.
    rewrite queue_lookup_snoc_other by done.
    cbn [queue_lookup]. by rewrite decide_False by congruence.
Qed.

Lemma update_full_evicts_head_witness :
  ∃ t',
    update_TLB 99 5 (Tlb (seqZ 0 16) (seqZ 0 16) 16 3) = Some t' ∧
    search_TLB t' 3 = Some (-1) ∧
    ∀ q, q ≠ 99 → q ≠ 3 →
         search_TLB t' q = search_TLB (Tlb (seqZ 0 16) (seqZ 0 16) 16 3) q.
Proof.
  apply (update_full_evicts_head (Tlb (seqZ 0 16) (seqZ 0 16) 16 3) 99 5 3).
  - unfold tlb_wf, tlb_inv, NUM_TLB_ENTRIES. simpl. lia.
  - reflexivity.
  - apply (bool_decide_unpack _). vm_compute. exact I.
  - reflexivity.
  - lia.
Defined.

(** [update_TLB] does not look for the page it inserts: when the page is
    already held and there is room, the buffer then holds it twice, and
    [search_TLB] keeps returning the frame of the older entry. *)
Theorem update_keeps_older_entry (t : tlb) (p f f0 : Z) :
  tlb_wf t →
  num_filled t < NUM_TLB_ENTRIES →
  search_TLB t p = Some f0 →
  f0 ≠ -1 →
  ∃ t',
    update_TLB p f t = Some t' ∧
    search_TLB t' p = Some f0 ∧
    num_filled t' = num_filled t + 1 ∧
    ¬ NoDup (take (Z.to_nat (num_filled t')) (page_numbers t')).
Proof.
  intros Hwf Hroom Hfound Hf0.
  rewrite (search_TLB_view t) in Hfound by done. injection Hfound as Hfound.
  pose proof (queue_lookup_hit _ _ _ Hfound Hf0) as Hin.
  assert (p ∈ (tlb_view t).*1) as Hheld.
  { apply list_elem_of_fmap. exists (p, f0). split; [reflexivity|exact Hin]. }
  destruct (update_TLB_wf p f t Hwf) as (t' & Hup & Hwf').
  pose proof (update_TLB_view _ _ _ _ Hwf Hup) as Hview.
  unfold queue_push in Hview. rewrite decide_False in Hview.
  2:{ rewrite tlb_view_length. destruct Hwf as (_ & _ & Hn & _). lia. }
  exists t'. split; [exact Hup|]. split_and!.
  - rewrite (search_TLB_view t') by done. rewrite Hview. f_equal.
    rewrite queue_lookup_app_l by done. exact Hfound.
  - rewrite (update_TLB_spare _ _ _ Hwf Hroom) in Hup.
    injection Hup as <-. reflexivity.
  - intros Hnd. apply tlb_view_NoDup in Hnd; [|done].
    rewrite Hview, fmap_app in Hnd. apply NoDup_app in Hnd as (_ & Hdis & _).
    apply (Hdis p Hheld). cbn. left.
Qed.

Lemma update_keeps_older_entry_witness :
  ∃ t',
    update_TLB 0 9 (Tlb (replicate 16 0) (replicate 16 4) 1 0) = Some t' ∧
    search_TLB t' 0 = Some 4 ∧
    num_filled t' = 1 + 1 ∧
    ¬ NoDup (take (Z.to_nat (num_filled t')) (page_numbers t')).
Proof.
  apply (update_keeps_older_entry
           (Tlb (replicate 16 0) (replicate 16 4) 1 0) 0 9 4).
  - unfold tlb_wf, tlb_inv, NUM_TLB_ENTRIES. simpl. lia.
  - unfold NUM_TLB_ENTRIES. simpl. lia.
  - reflexivity.
  - lia.
Defined.

(** ** What a run reports *)

(** One report per address, in the order of the stream, each echoing its
    address; the byte reported is the byte of the disk file at the
    position given by the low 16 bits of the address (0 past the end of
    the file), whatever was referenced before; the physical address keeps
    the offset and lies within the 65536 bytes of the memory. *)
Theorem reports_read_the_disk (disk_file stream : list Z) :
  ∃ rs s,
    main disk_file stream = Some (rs, s) ∧
    virtual_address <$> rs = stream ∧
    Forall (λ r,
        value r = nth (Z.to_nat (virtual_address r mod 65536)) disk_file 0 ∧
        physical_address r mod 256 = virtual_address r mod 256 ∧
        0 <= physical_address r < NUM_FRAMES * FRAME_SIZE_BYTES) rs.
Proof.
  destruct (main_ok disk_file stream) as (rs & s & Hmain & [HI _] & _ & Hrs).
  exists rs, s. split; [exact Hmain|]. clear Hmain.
  pose proof (Inv_loaded_length _ _ _ HI) as Hlen. clear HI.
  unfold NUM_FRAMES, FRAME_SIZE_BYTES.
  generalize dependent (loaded_pages stream). intros loaded Hrs Hlen.
  induction Hrs as [|va r vas rs (Hva & f & Hf & Hphys & Hval) Hrs IH].
  - split; [reflexivity|constructor].
  - destruct IH as [IH1 IH2]. cbn [fmap list_fmap]. split.
    + rewrite Hva, IH1. reflexivity.
    + constructor; [|exact IH2]. rewrite Hva.
      pose proof (lookup_lt_Some _ _ _ Hf) as Hlt.
      pose proof (get_page_number_range va) as Hp.
      pose proof (get_offset_range va) as Ho.
      rewrite read_page_lookup in Hval by lia. injection Hval as Hval.
      unfold FRAME_SIZE_BYTES in Hphys. split_and!.
      * rewrite <- Hval. f_equal. rewrite address_split. lia.
      * rewrite Hphys, <- (get_offset_mod va).
        Z.div_mod_to_equations. lia.
      * lia.
      * lia.
Qed.

(** Within a run, two addresses get the same physical address exactly
    when they agree in their low 16 bits: pages never share a frame, and
    a page keeps its frame. *)
Theorem translation_injective (disk_file stream : list Z) :
  ∃ rs s,
    main disk_file stream = Some (rs, s) ∧
    ∀ r1 r2, r1 ∈ rs → r2 ∈ rs →
      (physical_address r1 = physical_address r2 ↔
       virtual_address r1 mod 65536 = virtual_address r2 mod 65536).
Proof.
  destruct (main_ok disk_file stream) as (rs & s & Hmain & [HI _] & _ & Hrs).
  exists rs, s. split; [exact Hmain|]. clear Hmain.
  intros r1 r2 [i Hi]%list_elem_of_lookup_1 [j Hj]%list_elem_of_lookup_1.
  destruct (Forall2_lookup_r _ _ _ _ _ Hrs Hi)
    as (va1 & _ & Hva1 & f1 & Hf1 & Hphys1 & _).
  destruct (Forall2_lookup_r _ _ _ _ _ Hrs Hj)
    as (va2 & _ & Hva2 & f2 & Hf2 & Hphys2 & _).
  rewrite Hva1, Hva2, Hphys1, Hphys2, !address_split.
  unfold FRAME_SIZE_BYTES.
  pose proof (get_offset_range va1). pose proof (get_offset_range va2).
  split.
  - intros Heq. assert (f1 = f2) as -> by lia.
    rewrite Hf1 in Hf2. injection Hf2 as ->. lia.
  - intros Heq.
    pose proof (get_page_number_range va1).
    pose proof (get_page_number_range va2).
    assert (get_page_number va1 = get_page_number va2) as Hp by lia.
    rewrite Hp in Hf1.
    rewrite (Inv_frame_unique _ _ _ _ _ _ HI Hf1 Hf2). lia.
Qed.

Lemma translation_injective_witness :
  physical_address (Report 5 5 0) = physical_address (Report 65541 5 0) ↔
  virtual_address (Report 5 5 0) mod 65536 =
    virtual_address (Report 65541 5 0) mod 65536.
Proof.
  destruct (translation_injective [] [5; 65541]) as (rs & s & Hmain & H).
  assert (rs = [Report 5 5 0; Report 65541 5 0]) as ->.
  { vm_compute in Hmain. injection Hmain as <- _. reflexivity. }
  apply H.
  - left.
  - right. left.
Defined.

(** ** Counting faults and hits *)

Lemma loaded_pages_length stream :
  length (loaded_pages stream) =
  length (remove_dups (get_page_number <$> stream)).
Proof.
  apply Permutation_length, NoDup_Permutation.
  - destruct (main_ok [] stream) as (_ & s & _ & [HI _] & _).
    apply (inv_nodup HI).
  - apply NoDup_remove_dups.
  - intros p. rewrite loaded_pages_elem, elem_of_remove_dups. reflexivity.
Qed.

(** A run faults once for each distinct page number of the stream, and
    uses that many frames: neither the order of the addresses nor the
    buffer changes the number of faults. *)
Theorem faults_count_distinct_pages (disk_file stream : list Z) :
  ∃ rs s,
    main disk_file stream = Some (rs, s) ∧
    num_Pg_faults s.2 =
      Z.of_nat (length (remove_dups (get_page_number <$> stream))) ∧
    num_page_faults s.1 = num_Pg_faults s.2 ∧
    highest_open_frame (local_memory s.1) = num_Pg_faults s.2 ∧
    occurrences Page_fault (stream_paths disk_file stream initial_state) =
      num_Pg_faults s.2.
Proof.
  destruct (stream_trace_spec disk_file stream [] initial_state
              (initial_state_inv disk_file))
    as (rs & s & Hrun & Hlen & Hlast & Htr).
  destruct (main_ok disk_file stream) as (rs' & s' & Hmain & [HI Hf] & _).
  rewrite main_eq, Hrun in Hmain. injection Hmain as <- <-.
  exists rs, s. rewrite main_eq. split; [exact Hrun|]. clear Hrun.
  rewrite <- loaded_pages_length. split_and!.
  - exact Hf.
  - rewrite Hf. apply (inv_faults HI).
  - rewrite Hf. apply (inv_hof HI).
  - pose proof (locals_along_last
                  (stream_paths disk_file stream initial_state)
                  (Locals 0 0 0)) as Hl.
    cbn [initial_state snd] in Htr.
    rewrite <- Htr, fmap_last, Hlast in Hl.
    cbn [fmap option_fmap option_map] in Hl. injection Hl as ->.
    cbn [num_Pg_faults]. lia.
Qed.

(** A stream with at most 16 distinct pages never loses an entry of the
    buffer: every reference to a page seen before is a buffer hit, none
    goes to the page table for a page already loaded, and, the stream
    being of at most [INT_MAX] addresses so that no counter overflows,
    the hits are the addresses minus the distinct pages. *)
Theorem small_working_set_hits (disk_file stream : list Z) :
  Z.of_nat (length stream) <= INT_MAX →
  (length (remove_dups (get_page_number <$> stream)) <= 16)%nat →
  ∃ rs s,
    main disk_file stream = Some (rs, s) ∧
    Forall (λ path, path ≠ Table_hit)
           (stream_paths disk_file stream initial_state) ∧
    num_TLB_hits s.2 =
      Z.of_nat (length stream)
      - Z.of_nat (length (remove_dups (get_page_number <$> stream))) ∧
    (tlb_view (TLB s.1)).*1 = loaded_pages stream ∧
    run_in_int_range disk_file stream.
Proof.
  intros Hbound Hfit. rewrite <- loaded_pages_length in *.
  destruct (resident_run disk_file stream [] initial_state
              (initial_state_inv disk_file))
    as (rs & s & Hrun & Hview & Hpaths & Hhits).
  { cbn [initial_state fst]. rewrite tlb_view_initial. reflexivity. }
  { exact Hfit. }
  exists rs, s. rewrite main_eq. split; [exact Hrun|]. clear Hrun.
  fold (loaded_pages stream) in Hview, Hhits.
  cbn [initial_state snd num_TLB_hits length] in Hhits.
  split_and!.
  - exact Hpaths.
  - lia.
  - exact Hview.
  - by apply run_in_int_range_bounded.
Qed.

Lemma small_working_set_hits_witness :
  ∃ rs s,
    main [] [0; 256; 1; 257; 0] = Some (rs, s) ∧
    Forall (λ path, path ≠ Table_hit)
           (stream_paths [] [0; 256; 1; 257; 0] initial_state) ∧
    num_TLB_hits s.2 =
      Z.of_nat (length [0; 256; 1; 257; 0])
      - Z.of_nat (length (remove_dups
                            (get_page_number <$> [0; 256; 1; 257; 0]))) ∧
    (tlb_view (TLB s.1)).*1 = loaded_pages [0; 256; 1; 257; 0] ∧
    run_in_int_range [] [0; 256; 1; 257; 0].
Proof.
  apply (small_working_set_hits [] [0; 256; 1; 257; 0]).
  - unfold INT_MAX. simpl. lia.
  - vm_compute. lia.
Defined.

(** ** Hits, coherence and stale contents *)



(** In every state of a run the buffer agrees with the page table and
    the memory: a slot in use holds a page of the range, the frame the
    page table has for it, and that frame holds the page as read from the
    disk. *)
Theorem tlb_agrees_with_page_table (disk_file hist : list Z) :
  ∃ rs s,
    main disk_file hist = Some (rs, s) ∧
    ∀ slot, 0 <= slot < num_filled (TLB s.1) →
      ∃ p f,
        arr_get (page_numbers (TLB s.1)) slot = Some p ∧
        arr_get (frame_numbers (TLB s.1)) slot = Some f ∧
        0 <= p < 256 ∧
        0 <= f < highest_open_frame (local_memory s.1) ∧
        arr_get (page_table s.1) p = Some f ∧
        arr_get (frames (local_memory s.1)) f =
          Some (read_page disk_file p).
Proof.
  destruct (main_ok disk_file hist) as (rs & s & Hmain & [HI _] & _).
  exists rs, s. split; [exact Hmain|]. clear Hmain.
  intros slot Hslot.
  pose proof (inv_tlb HI) as (Hlp & Hlf & Hinv).
  pose proof Hinv as (Hn & _). unfold NUM_TLB_ENTRIES in *.
  destruct (tlb_slot_surj _ slot Hinv Hslot) as (a & Ha & Hsa).
  pose proof (tlb_view_lookup (TLB s.1) (Z.to_nat a) ltac:(lia)) as Hv.
  rewrite Z2Nat.id, Hsa in Hv by lia.
  apply list_elem_of_lookup_2 in Hv.
  destruct (inv_tlb_sound HI _ _ Hv) as (i & Hi & Hfi).
  destruct (arr_get_in_range (page_numbers (TLB s.1)) slot) as [p Hp];
    [lia|].
  destruct (arr_get_in_range (frame_numbers (TLB s.1)) slot) as [f Hf];
    [lia|].
  pose proof Hp as [_ Hp']%arr_get_Some.
  pose proof Hf as [_ Hf']%arr_get_Some.
  rewrite (list_lookup_total_correct _ _ _ Hp') in Hi.
  rewrite (list_lookup_total_correct _ _ _ Hf') in Hfi.
  pose proof (lookup_lt_Some _ _ _ Hi) as Hlt.
  exists p, f. split_and!.
  - exact Hp.
  - exact Hf.
  - apply (inv_range HI). by eapply list_elem_of_lookup_2.
  - apply (inv_range HI). by eapply list_elem_of_lookup_2.
  - lia.
  - rewrite (inv_hof HI). lia.
  - apply arr_get_Some.
    assert (0 <= p < 256)
      by (apply (inv_range HI); by eapply list_elem_of_lookup_2).
    split; [lia|]. rewrite Hfi. apply (inv_mapped HI _ _ Hi).
  - apply arr_get_Some. split; [lia|]. rewrite Hfi, Nat2Z.id.
    apply (inv_mem HI _ _ Hi).
Qed.

Lemma tlb_agrees_with_page_table_witness :
  ∃ g p f,
    (fst ∘ snd <$> main disk_0_5 [256]) = Some g ∧
    arr_get (page_numbers (TLB g)) 0 = Some p ∧
    arr_get (frame_numbers (TLB g)) 0 = Some f ∧
    0 <= p < 256 ∧
    0 <= f < highest_open_frame (local_memory g) ∧
    arr_get (page_table g) p = Some f ∧
    arr_get (frames (local_memory g)) f = Some (read_page disk_0_5 p).
Proof.
  destruct (tlb_agrees_with_page_table disk_0_5 [256])
    as (rs & s & Hmain & H).
  assert (num_filled (TLB s.1) = 1) as Hn.
  { vm_compute in Hmain. injection Hmain as _ <-. reflexivity. }
  destruct (H 0 ltac:(lia)) as (p & f & Hp).
  exists s.1, p, f. split; [|exact Hp].
  rewrite Hmain. reflexivity.
Defined.

(** The initialisers need not clear the arrays: started from a page
    table, a memory and a buffer of the right sizes with any contents,
    and the fault counter at 0, the run produces the same reports and the
    same statistics as the run of [main]. *)
Theorem initialisers_suffice (disk_file stream pt : list Z) (m : memory)
    (t : tlb) :
  length pt = 256%nat →
  length (frames m) = 256%nat →
  (∀ i row, frames m !! i = Some row → length row = 256%nat) →
  length (page_numbers t) = 16%nat →
  length (frame_numbers t) = 16%nat →
  ∃ pt' rs s s0,
    initialize_page_table pt = Some pt' ∧
    process_stream disk_file stream
      (Globals pt' (initialize_memory m) (initialize_TLB t) 0, Locals 0 0 0)
      = Some (rs, s) ∧
    main disk_file stream = Some (rs, s0) ∧
    s.2 = s0.2.
Proof.
  intros Hpt Hfr Hrows Hlp Hlf.
  assert (initialize_page_table pt = Some (replicate 256 (-1))) as Hinit.
  { unfold initialize_page_table, PAGE_SIZE_BYTES.
    rewrite initialize_page_table_loop_spec by lia. f_equal.
    change (Z.to_nat 0) with 0%nat. change (Z.to_nat 256) with 256%nat.
    cbn [take Nat.add app]. rewrite drop_ge by lia. apply app_nil_r. }
  set (s1 := (Globals (replicate 256 (-1)) (initialize_memory m)
                      (initialize_TLB t) 0, Locals 0 0 0)).
  assert (state_inv disk_file [] s1) as Hs1.
  { split; [|reflexivity]. subst s1. cbn [fst].
    constructor; cbn [page_table local_memory TLB num_page_faults
                      initialize_memory frames highest_open_frame].
    - apply length_replicate.
    - exact Hfr.
    - exact Hrows.
    - unfold tlb_wf, tlb_inv, initialize_TLB, NUM_TLB_ENTRIES.
      cbn [page_numbers frame_numbers num_filled head_position].
      split_and!; (exact Hlp || exact Hlf || lia).
    - reflexivity.
    - reflexivity.
    - constructor.
    - intros p Hp. by apply elem_of_nil in Hp.
    - intros i p Hp. rewrite lookup_nil in Hp. congruence.
    - intros p Hp _. apply lookup_replicate_2. lia.
    - intros i p Hp. rewrite lookup_nil in Hp. congruence.
    - constructor.
    - intros p f Hp. by apply elem_of_nil in Hp. }
  destruct (process_stream_sim disk_file stream [] s1 initial_state Hs1
              (initial_state_inv disk_file))
    as (rs & s & s0 & Hr1 & Hr0 & _ & Hl).
  { reflexivity. }
  { reflexivity. }
  exists (replicate 256 (-1)), rs, s, s0. split_and!.
  - exact Hinit.
  - exact Hr1.
  - rewrite main_eq. exact Hr0.
  - exact Hl.
Qed.

Lemma initialisers_suffice_witness :
  ∃ pt' rs s s0,
    initialize_page_table (replicate 256 3) = Some pt' ∧
    process_stream [] [0; 256]
      (Globals pt' (initialize_memory
                      (Memory (replicate 256 (replicate 256 9)) 77))
               (initialize_TLB (Tlb (seqZ 0 16) (seqZ 0 16) 5 2)) 0,
       Locals 0 0 0)
      = Some (rs, s) ∧
    main [] [0; 256] = Some (rs, s0) ∧
    s.2 = s0.2.
Proof.
  apply (initialisers_suffice [] [0; 256] (replicate 256 3)
           (Memory (replicate 256 (replicate 256 9)) 77)
           (Tlb (seqZ 0 16) (seqZ 0 16) 5 2)).
  - apply length_replicate.
  - apply length_replicate.
  - intros i row [-> _]%lookup_replicate. apply length_replicate.
  - reflexivity.
  - reflexivity.
Defined.

(** A frame, once loaded, is never written again: whatever addresses
    follow, the frames below [highest_open_frame] keep their contents,
    and [highest_open_frame] does not decrease. *)
Theorem loaded_frames_stable (disk_file hist more : list Z) (i : Z)
    (rs : list report) (s : globals * locals) :
  main disk_file hist = Some (rs, s) →
  0 <= i < highest_open_frame (local_memory s.1) →
  ∃ rs' s',
    main disk_file (hist ++ more) = Some (rs ++ rs', s') ∧
    highest_open_frame (local_memory s.1)
      <= highest_open_frame (local_memory s'.1) ∧
    arr_get (frames (local_memory s'.1)) i =
      arr_get (frames (local_memory s.1)) i.
Proof.
  intros Hmain Hi.
  pose proof (main_state_inv _ _ _ _ Hmain) as Hs.
  destruct (process_stream_ok disk_file more _ s Hs)
    as (rs' & s' & Hrun & [HI' _] & _).
  destruct Hs as [HI _].
  exists rs', s'. split.
  { rewrite (main_app _ _ _ _ _ Hmain), Hrun. reflexivity. }
  clear Hmain Hrun.
  pose proof (foldl_touch_prefix (loaded_pages hist)
                (get_page_number <$> more)) as Hpre.
  rewrite (inv_hof HI) in *. rewrite (inv_hof HI').
  split; [apply prefix_length in Hpre; lia|].
  destruct (lookup_lt_is_Some_2 (loaded_pages hist) (Z.to_nat i))
    as [p Hp]; [lia|].
  pose proof (prefix_lookup_Some _ _ _ _ Hp Hpre) as Hp'.
  unfold arr_get. case_decide; [|lia].
  rewrite (inv_mem HI _ _ Hp), (inv_mem HI' _ _ Hp'). reflexivity.
Qed.

Lemma loaded_frames_stable_witness :
  ∃ rs s rs' s',
    main disk_0_5 [256] = Some (rs, s) ∧
    main disk_0_5 ([256] ++ [0; 300]) = Some (rs ++ rs', s') ∧
    highest_open_frame (local_memory s.1)
      <= highest_open_frame (local_memory s'.1) ∧
    arr_get (frames (local_memory s'.1)) 0 =
      arr_get (frames (local_memory s.1)) 0.
Proof.
  assert (∃ rs s, main disk_0_5 [256] = Some (rs, s) ∧
                  0 <= 0 < highest_open_frame (local_memory s.1))
    as (rs & s & Hmain & Hi).
  { eexists _, _. split; [vm_compute; reflexivity|]. vm_compute.
    split; [discriminate|reflexivity]. }
  destruct (loaded_frames_stable disk_0_5 [256] [0; 300] 0 rs s Hmain Hi)
    as (rs' & s' & H).
  exists rs, s, rs', s'. split; [exact Hmain|exact H].
Defined.
